(** * oead: the AAMP text codec and its name table

    A shallow embedding of [src/aamp_text.cpp] (namespace [oead::aamp]):
    the [NameTable] that recovers names from their CRC32 hashes, the YAML
    reader ([read] overloads, [ParameterIO::FromText]) and the YAML writer
    ([TextEmitter], [ParameterIO::ToText]).

    Conventions.
    - [u32], [u64], [int], [u8] values are integers of [Z]; every narrowing
      conversion of the source is written out ([to_u32], [to_s32], [to_u8]).
    - [absl::flat_hash_map<u32, ...>] is a [gmap Z ...]; the insertion-ordered
      maps of the parameter tree are association lists.
    - A function that mutates a [NameTable] takes the table and returns the
      new one next to its result.
    - A C++ exception is an [Err] of the [result] type. *)

From Stdlib Require Import ZArith String Ascii DecimalString.
From stdpp Require Import base tactics option list gmap strings.

Set Warnings "-register-all".

Open Scope string_scope.
Open Scope Z_scope.
Open Scope list_scope.

(** ** Fixed-width integers *)

Definition to_u32 (v : Z) : Z := v mod 2 ^ 32.
Definition to_u8 (v : Z) : Z := v mod 2 ^ 8.
(** [int(value)] for a [u64] value: the low 32 bits, read in two's complement. *)
Definition to_s32 (v : Z) : Z :=
  let w := v mod 2 ^ 32 in
  if w <? 2 ^ 31 then w else w - 2 ^ 32.

Definition is_u32 (v : Z) : Prop := 0 <= v < 2 ^ 32.
Definition is_s32 (v : Z) : Prop := - 2 ^ 31 <= v < 2 ^ 31.
Definition is_u8 (v : Z) : Prop := 0 <= v < 2 ^ 8.

(** ** CRC32 *)

Module Crc.

(** Modelled from the spec: [util::crc32] is defined in another file of
    the library; the glossary fixes it as the 32-bit cyclic redundancy check
    with the reflected polynomial 0xEDB88320 (the zlib CRC-32: register
    initialised to all ones, inverted at the end). *)
Definition bytes_of (s : string) : list Z :=
  (fun c => Z.of_N (N_of_ascii c)) <$> list_ascii_of_string s.

Definition shift_bit (c : Z) : Z :=
  if Z.testbit c 0 then Z.lxor (Z.shiftr c 1) 0xEDB88320 else Z.shiftr c 1.

Definition update (c byte : Z) : Z := Nat.iter 8 shift_bit (Z.lxor c byte).

Definition crc32 (s : string) : Z :=
  Z.lxor (fold_left update (bytes_of s) 0xFFFFFFFF) 0xFFFFFFFF.

End Crc.

Abbreviation crc32 := Crc.crc32.

(** ** absl::StrFormat, for the conversions the name table uses *)

Module Format.

Inductive Arg :=
| ArgStr (s : string)
| ArgInt (i : Z).

Definition string_of_nonneg (n : Z) : string :=
  NilZero.string_of_uint (N.to_uint (Z.to_N n)).

Fixpoint repeat_char (c : ascii) (n : nat) : string :=
  match n with
  | O => ""
  | S n' => String c (repeat_char c n')
  end.

(** [%d] with an optional [0] flag and a minimum field width: the sign comes
    first, zero padding goes between the sign and the digits, blank padding
    goes before the sign. *)
Definition format_int (zero : bool) (width : nat) (i : Z) : string :=
  let digits := string_of_nonneg (Z.abs i) in
  let sign := if i <? 0 then "-" else "" in
  let pad := (width - (String.length sign + String.length digits))%nat in
  if zero then sign +:+ repeat_char "0" pad +:+ digits
  else repeat_char " " pad +:+ sign +:+ digits.

Definition format_str (width : nat) (s : string) : string :=
  repeat_char " " (width - String.length s)%nat +:+ s.

Definition digit_of (c : ascii) : option nat :=
  let n := nat_of_ascii c in
  if bool_decide (48 <= n <= 57)%nat then Some (n - 48)%nat else None.

(** The reader is either in literal text or inside a conversion
    specification, of which it has seen the [0] flag and the width so far;
    [fresh] says that nothing has followed the percent sign yet. *)
Inductive state :=
| Text
| Spec (fresh zero : bool) (width : nat).

Fixpoint run (st : state) (fmt : string) (args : list Arg) : option string :=
  match fmt with
  | EmptyString =>
      match st with
      | Text => Some ""
      | Spec _ _ _ => None
      end
  | String c fmt' =>
      match st with
      | Text =>
          if bool_decide (c = "%"%char) then run (Spec true false 0) fmt' args
          else String c <$> run Text fmt' args
      | Spec fresh zero width =>
          if bool_decide (c = "%"%char) then
            if fresh then String c <$> run Text fmt' args else None
          else if bool_decide (c = "0"%char) && fresh then
            run (Spec false true 0) fmt' args
          else
            match digit_of c with
            | Some d => run (Spec false zero (10 * width + d)) fmt' args
            | None =>
                if bool_decide (c = "d"%char) || bool_decide (c = "i"%char) then
                  match args with
                  | ArgInt i :: args' =>
                      String.app (format_int zero width i) <$> run Text fmt' args'
                  | _ => None
                  end
                else if bool_decide (c = "s"%char) then
                  match args with
                  | ArgStr s :: args' =>
                      if zero then None
                      else String.app (format_str width s) <$> run Text fmt' args'
                  | _ => None
                  end
                else None
            end
      end
  end.

(** [absl::StrFormat(fmt, args...)] with a format string read at run time:
    the formatted text, or the empty string when the format is malformed or
    does not fit the arguments.  Only the conversions that occur in the six
    patterns of [GetName] and in numbered names are interpreted ([%d], [%i],
    [%s], a [0] flag, a width, [%%]); any other conversion counts as
    malformed. *)
Definition StrFormat (fmt : string) (args : list Arg) : string :=
  default "" (run Text fmt args).

End Format.

Import Format.

(** ** NameTable *)

Record NameTable := mkNameTable {
  names : gmap Z string;
  owned_names : gmap Z string;
  numbered_names : list string;
}.

(** [NameTable{false}]: nothing is seeded. *)
Definition empty_table : NameTable := mkNameTable ∅ ∅ [].

(** [flat_hash_map::emplace]: an existing entry is kept. *)
Definition emplace (k : Z) (v : string) (m : gmap Z string) : gmap Z string :=
  match m !! k with
  | Some _ => m
  | None => <[k := v]> m
  end.

(** [SplitStringByLine]: the callback is called on every non-empty line, in
    order; [line] is the part of the current line read so far. *)
Fixpoint split_lines (data line : string) : list string :=
  match data with
  | EmptyString => if bool_decide (line = "") then [] else [line]
  | String c data' =>
      if bool_decide (c = "010"%char) then
        (if bool_decide (line = "") then [] else [line]) ++ split_lines data' ""
      else split_lines data' (line +:+ String c "")
  end.

Definition SplitStringByLine (data : string) : list string := split_lines data "".

(** [NameTable::NameTable(bool with_botw_strings)], given the contents of
    the two resource files [data/botw_hashed_names.txt] and
    [data/botw_numbered_names.txt]. *)
Definition NameTable_new (with_botw_strings : bool)
    (hashed_names_f numbered_names_f : string) : NameTable :=
  if with_botw_strings then
    mkNameTable
      (foldl (fun names name => emplace (crc32 name) name names) ∅
         (SplitStringByLine hashed_names_f))
      ∅
      (SplitStringByLine numbered_names_f)
  else empty_table.

(** [AddName]: the name stored under [hash] after the [emplace]. *)
Definition AddName (hash : Z) (name : string) (t : NameTable) : string * NameTable :=
  let owned := emplace hash name (owned_names t) in
  (default name (owned !! hash), mkNameTable (names t) owned (numbered_names t)).

Definition AddNameReference (name : string) (t : NameTable) : NameTable :=
  mkNameTable (emplace (crc32 name) name (names t)) (owned_names t) (numbered_names t).

(** A [for] loop whose body may [return]: the first iteration that returns
    decides. *)
Fixpoint first_return {A B} (body : A -> option B) (l : list A) : option B :=
  match l with
  | [] => None
  | x :: l' =>
      match body x with
      | Some r => Some r
      | None => first_return body l'
      end
  end.

Definition formats : list string :=
  ["%s%d"; "%s_%d"; "%s%02d"; "%s_%02d"; "%s%03d"; "%s_%03d"].

(** The lambda [test_names] of [GetName]; [hash], [index] and the table are
    its captures. *)
Definition test_names (hash index : Z) (t : NameTable) (prefix : string)
  : option (string * NameTable) :=
  first_return (fun i =>
    first_return (fun format =>
      let candidate := StrFormat format [ArgStr prefix; ArgInt i] in
      if bool_decide (crc32 candidate = hash) then Some (AddName hash candidate t)
      else None) formats) [index; index + 1].

Definition EndsWith (text suffix : string) : bool :=
  let n := String.length text in
  let k := String.length suffix in
  bool_decide (k <= n)%nat && bool_decide (substring (n - k) k text = suffix).

Definition strip_suffix (text suffix : string) : string :=
  substring 0 (String.length text - String.length suffix) text.

(** The block guarded by [names.find(parent_name_hash)]. *)
Definition guess_from_parent (hash index : Z) (t : NameTable) (parent_name : string)
  : option (string * NameTable) :=
  match test_names hash index t parent_name with
  | Some r => Some r
  | None =>
      match test_names hash index t "Children" with
      | Some r => Some r
      | None =>
          first_return (fun suffix =>
            if EndsWith parent_name suffix
            then test_names hash index t (strip_suffix parent_name suffix)
            else None) ["s"; "es"; "List"]
      end
  end.

(** "Last resort: test all numbered names", [i] from 0 below [index + 2]. *)
Definition guess_from_numbered (hash index : Z) (t : NameTable)
  : option (string * NameTable) :=
  first_return (fun name =>
    first_return (fun i =>
      let candidate := StrFormat name [ArgInt i] in
      if bool_decide (crc32 candidate = hash) then Some (AddName hash candidate t)
      else None) (seqZ 0 (index + 2))) (numbered_names t).

(** [NameTable::GetName].  [index] is a C++ [int]; [index + 1] and
    [index + 2] are computed in [Z], which agrees with the source below
    [INT_MAX - 1] (beyond it the source overflows a signed integer). *)
Definition GetName (hash index parent_name_hash : Z) (t : NameTable)
  : option string * NameTable :=
  match names t !! hash with
  | Some name => (Some name, t)
  | None =>
      match owned_names t !! hash with
      | Some name => (Some name, t)
      | None =>
          let guessed :=
            match names t !! parent_name_hash with
            | Some parent_name => guess_from_parent hash index t parent_name
            | None => None
            end in
          match guessed with
          | Some (name, t') => (Some name, t')
          | None =>
              match guess_from_numbered hash index t with
              | Some (name, t') => (Some name, t')
              | None => (None, t)
              end
          end
      end
  end.

(** The candidates [test_names prefix] tries, in the order of its loops:
    [i] over [index], [index + 1] outside, the six patterns inside. *)
Definition candidates (prefix : string) (index : Z) : list string :=
  i ← [index; index + 1];
  format ← formats;
  [StrFormat format [ArgStr prefix; ArgInt i]].

(** The order the specification words give: the six patterns outside, [i]
    inside. *)
Definition spec_candidates (prefix : string) (index : Z) : list string :=
  format ← formats;
  i ← [index; index + 1];
  [StrFormat format [ArgStr prefix; ArgInt i]].

(** The table after a guessed [name] has been stored under [hash]. *)
Definition with_owned (hash : Z) (name : string) (t : NameTable) : NameTable :=
  mkNameTable (names t) (<[hash := name]> (owned_names t)) (numbered_names t).

(** The calls a table takes between two lookups: the three member
    functions of [NameTable]. *)
Inductive table_call :=
| CallGetName (hash index parent_name_hash : Z)
| CallAddName (hash : Z) (name : string)
| CallAddNameReference (name : string).

Definition run_call (t : NameTable) (c : table_call) : NameTable :=
  match c with
  | CallGetName hash index parent_name_hash => (GetName hash index parent_name_hash t).2
  | CallAddName hash name => (AddName hash name t).2
  | CallAddNameReference name => AddNameReference name t
  end.

Definition run_calls (calls : list table_call) (t : NameTable) : NameTable :=
  foldl run_call t calls.

(** A call that cannot put another name under [hash] in [names]: any call
    but an [AddNameReference] of a string other than [name] whose CRC32 is
    [hash]. *)
Definition keeps_name (hash : Z) (name : string) (c : table_call) : bool :=
  match c with
  | CallAddNameReference n => negb (crc32 n =? hash) || (n =? name)%string
  | _ => true
  end.

(** Every entry of the table is stored under the CRC32 of its name. *)
Definition consistent (t : NameTable) : Prop :=
  (forall h s, names t !! h = Some s -> crc32 s = h) /\
  (forall h s, owned_names t !! h = Some s -> crc32 s = h).

(** [hash] is resolved to [name] by one of the two dictionaries. *)
Definition resolved (hash : Z) (name : string) (t : NameTable) : Prop :=
  names t !! hash = Some name \/
  (names t !! hash = None /\ owned_names t !! hash = Some name).

(** What holds of a table after [BuildExtraNameTable]: the entries of
    [names] stay, and the table stays consistent. *)
Definition extends (t t' : NameTable) : Prop :=
  (forall h x, names t !! h = Some x -> names t' !! h = Some x) /\
  (consistent t -> consistent t').

(** ** The YAML document and the parameter tree *)

(** The exceptions the reader can raise: [InvalidDataError] of oead,
    [std::bad_variant_access] of a [std::get] on the wrong alternative, and
    the error ryml reports through its callback. *)
Inductive error :=
| InvalidDataError
| bad_variant_access
| RymlError.

Inductive result (A : Type) :=
| Ok (a : A)
| Err (e : error).
Arguments Ok {A} a.
Arguments Err {A} e.

#[global] Instance result_ret : MRet result := fun A a => Ok a.
#[global] Instance result_fmap : FMap result := fun A B f m =>
  match m with
  | Ok a => Ok (f a)
  | Err e => Err e
  end.
#[global] Instance result_bind : MBind result := fun A B f m =>
  match m with
  | Ok a => f a
  | Err e => Err e
  end.

(** A loop that converts the elements in order and stops at the first
    exception. *)
Fixpoint traverse {A B} (f : A -> result B) (l : list A) : result (list B) :=
  match l with
  | [] => Ok []
  | x :: l' => y ← f x; ys ← traverse f l'; Ok (y :: ys)
  end.

(** Floating-point numbers are kept abstract.  [f64_to_f32] is the
    conversion [float(value)]; [float_text_value v] is the [f64] that
    [yml::ParseScalar] reads from the scalar [EmitFloat(v)] writes. *)
Class FloatModel := {
  f32 : Type;
  f64 : Type;
  f64_to_f32 : f64 -> f32;
  float_text_value : f32 -> f64;
}.

Section Model.

Context `{FloatModel}.

(** [yml::Scalar]: what [yml::ParseScalar] returns. *)
Inductive Scalar :=
| SNull
| SBool (v : bool)
| SInt (v : Z)
| SFloat (v : f64)
| SString (v : string).

(** A node of the parsed document ([ryml::NodeRef]).  The scalar layer
    ([yml::ParseScalar], [LibyamlEmitter] in [yaml.h] and [yaml.cpp]) and the
    YAML libraries (libyaml, ryml) are separate components, so the text is
    taken at the level both ends of this file see: a scalar node is given by
    its tag and by the [yml::Scalar] that [yml::ParseScalar(node,
    RecognizeTag)] returns for it, a key by the [yml::Scalar] of
    [yml::ParseScalarKey]; the document the writer produces is the tree of
    its events. *)
Inductive Node :=
| NScalar (tag : string) (v : Scalar)
| NSeq (tag : string) (children : list Node)
| NMap (tag : string) (children : list (Scalar * Node)).

Record Vector2f := mkVector2f { v2_x : f32; v2_y : f32 }.
Record Vector3f := mkVector3f { v3_x : f32; v3_y : f32; v3_z : f32 }.
Record Vector4f := mkVector4f { v4_x : f32; v4_y : f32; v4_z : f32; v4_t : f32 }.
Record Color4f := mkColor4f { col_r : f32; col_g : f32; col_b : f32; col_a : f32 }.
Record Quatf := mkQuatf { q_a : f32; q_b : f32; q_c : f32; q_d : f32 }.
(** [struct Curve { u32 a, b; std::array<float, 30> floats; }] *)
Record Curve := mkCurve { curve_a : Z; curve_b : Z; floats : list f32 }.

(** The alternatives of [Parameter::Value], in the order of their type
    tags; the type is named [Param] because [Parameter] is a keyword of Rocq.  [std::array<Curve, K>] is a list, of length [K] in a well-formed
    parameter. *)
Inductive Param :=
| PBool (v : bool)
| PF32 (v : f32)
| PInt (v : Z)
| PVec2 (v : Vector2f)
| PVec3 (v : Vector3f)
| PVec4 (v : Vector4f)
| PColor (v : Color4f)
| PString32 (v : string)
| PString64 (v : string)
| PCurve1 (v : list Curve)
| PCurve2 (v : list Curve)
| PCurve3 (v : list Curve)
| PCurve4 (v : list Curve)
| PBufferInt (v : list Z)
| PBufferF32 (v : list f32)
| PString256 (v : string)
| PQuat (v : Quatf)
| PU32 (v : Z)
| PBufferU32 (v : list Z)
| PBufferBinary (v : list Z)
| PStringRef (v : string).

(** Modelled from the spec: the tree types are declared in [oead/aamp.h].
    Every map is an ordered map from the [u32] hash of a name to its value,
    here an association list in iteration order; [ParameterIO] extends
    [ParameterList] with a version and a type. *)
Record ParameterObject := mkParameterObject { params : list (Z * Param) }.

Inductive ParameterList :=
| mkParameterList (objects : list (Z * ParameterObject)) (lists : list (Z * ParameterList)).

Definition objects (l : ParameterList) : list (Z * ParameterObject) :=
  match l with mkParameterList o _ => o end.
Definition lists (l : ParameterList) : list (Z * ParameterList) :=
  match l with mkParameterList _ s => s end.

Record ParameterIO := mkParameterIO {
  io_list : ParameterList;
  version : Z;
  type : string;
}.

(** Modelled from the spec: [ParameterIO::ParamRootKey], the CRC32 of
    "param_root". *)
Definition ParamRootKey : Z := crc32 "param_root".

(** Modelled from the spec: [emplace] of the ordered maps; a key that is
    present keeps its value and its place, a new key goes last. *)
Definition map_emplace {V} (k : Z) (v : V) (m : list (Z * V)) : list (Z * V) :=
  if bool_decide (k ∈ m.*1) then m else m ++ [(k, v)].

(** Modelled from the spec: [FixedSafeString<N>(value)] keeps at most
    [N - 1] bytes of [value]. *)
Definition FixedSafeString (N : nat) (value : string) : string :=
  substring 0 (N - 1) value.

(** Modelled from the spec: [IsStringType] and [GetStringView], for the
    string-typed parameters. *)
Definition string_value (p : Param) : option string :=
  match p with
  | PString32 s | PString64 s | PString256 s | PStringRef s => Some s
  | _ => None
  end.

(** *** Reading *)

Inductive TagBasedType := TBool | TStr | TInt | TFloat | TNull.

Definition RecognizeTag (tag : string) : option TagBasedType :=
  if (tag =? "!str32")%string || (tag =? "!str64")%string || (tag =? "!str256")%string
  then Some TStr
  else if (tag =? "!u")%string then Some TInt
  else None.

Definition ScalarToValue (tag : string) (scalar : Scalar) : result Param :=
  match scalar with
  | SBool value => Ok (PBool value)
  | SString value =>
      if (tag =? "!str32")%string then Ok (PString32 (FixedSafeString 32 value))
      else if (tag =? "!str64")%string then Ok (PString64 (FixedSafeString 64 value))
      else if (tag =? "!str256")%string then Ok (PString256 (FixedSafeString 256 value))
      else Ok (PStringRef value)
  | SInt value =>
      if (tag =? "!u")%string then Ok (PU32 (to_u32 value))
      else Ok (PInt (to_s32 value))
  | SFloat value => Ok (PF32 (f64_to_f32 value))
  | SNull => Err InvalidDataError
  end.

(** [yml::ParseScalar(node, RecognizeTag)]; on a node that has no value ryml
    reports an error. *)
Definition ParseScalar (node : Node) : result Scalar :=
  match node with
  | NScalar _ v => Ok v
  | _ => Err RymlError
  end.

Definition get_u64 (s : Scalar) : result Z :=
  match s with
  | SInt v => Ok v
  | _ => Err bad_variant_access
  end.

Definition get_f64 (s : Scalar) : result f64 :=
  match s with
  | SFloat v => Ok v
  | _ => Err bad_variant_access
  end.

Definition get_string (s : Scalar) : result string :=
  match s with
  | SString v => Ok v
  | _ => Err bad_variant_access
  end.

(** [ParseIntOrFloat<T>] for an integral [T], [conv] being the conversion
    [T(...)] of the [u64], and for [f32]. *)
Definition ParseInt (conv : Z -> Z) (node : Node) : result Z :=
  s ← ParseScalar node; v ← get_u64 s; Ok (conv v).

Definition ParseF32 (node : Node) : result f32 :=
  s ← ParseScalar node; v ← get_f64 s; Ok (f64_to_f32 v).

(** [ReadSequenceForNumericalStruct<T>], for each [T] it is used at: the
    number of children is checked first, then the fields are read in order. *)
Definition read_Vector2f (children : list Node) : result Vector2f :=
  match children with
  | [c1; c2] => x ← ParseF32 c1; y ← ParseF32 c2; Ok (mkVector2f x y)
  | _ => Err InvalidDataError
  end.

Definition read_Vector3f (children : list Node) : result Vector3f :=
  match children with
  | [c1; c2; c3] =>
      x ← ParseF32 c1; y ← ParseF32 c2; z ← ParseF32 c3; Ok (mkVector3f x y z)
  | _ => Err InvalidDataError
  end.

Definition read_Vector4f (children : list Node) : result Vector4f :=
  match children with
  | [c1; c2; c3; c4] =>
      x ← ParseF32 c1; y ← ParseF32 c2; z ← ParseF32 c3; t ← ParseF32 c4;
      Ok (mkVector4f x y z t)
  | _ => Err InvalidDataError
  end.

Definition read_Color4f (children : list Node) : result Color4f :=
  match children with
  | [c1; c2; c3; c4] =>
      r ← ParseF32 c1; g ← ParseF32 c2; b ← ParseF32 c3; a ← ParseF32 c4;
      Ok (mkColor4f r g b a)
  | _ => Err InvalidDataError
  end.

Definition read_Quatf (children : list Node) : result Quatf :=
  match children with
  | [c1; c2; c3; c4] =>
      a ← ParseF32 c1; b ← ParseF32 c2; c ← ParseF32 c3; d ← ParseF32 c4;
      Ok (mkQuatf a b c d)
  | _ => Err InvalidDataError
  end.

(** [ReadSequenceForBuffer<T>] *)
Definition ReadSequenceForBuffer {T} (parse : Node -> result T) (children : list Node)
  : result (list T) :=
  traverse parse children.

(** [node[i]]; there is no such child only when the sequence is too short,
    which the caller has excluded. *)
Definition child_at (children : list Node) (i : nat) : result Node :=
  match children !! i with
  | Some c => Ok c
  | None => Err RymlError
  end.

(** The loop [for (float& x : curve.floats) x = ParseIntOrFloat<f32>(node[i++])]
    over [n] floats, from position [i]. *)
Fixpoint read_floats (n : nat) (children : list Node) (i : nat) : result (list f32) :=
  match n with
  | O => Ok []
  | S n' =>
      c ← child_at children i; x ← ParseF32 c;
      xs ← read_floats n' children (S i); Ok (x :: xs)
  end.

(** [ReadSequenceForCurve<N>]: the curves are read one after the other, each
    from the next 32 children; [i] is the running position. *)
Fixpoint ReadSequenceForCurve (N : nat) (children : list Node) (i : nat)
  : result (list Curve) :=
  match N with
  | O => Ok []
  | S N' =>
      ca ← child_at children i; a ← ParseInt to_u32 ca;
      cb ← child_at children (i + 1); b ← ParseInt to_u32 cb;
      fs ← read_floats 30 children (i + 2);
      rest ← ReadSequenceForCurve N' children (i + 32);
      Ok (mkCurve a b fs :: rest)
  end.

Definition NumElementsPerCurve : nat := 32.

(** [read] for a [Parameter]: [Ok (Some v)] when it returns true, with [v]
    the value it assigns, [Ok None] when it returns false. *)
Definition read_Parameter (node : Node) : result (option Param) :=
  match node with
  | NSeq tag children =>
      Some <$>
      (if (tag =? "!vec2")%string then PVec2 <$> read_Vector2f children
       else if (tag =? "!vec3")%string then PVec3 <$> read_Vector3f children
       else if (tag =? "!vec4")%string then PVec4 <$> read_Vector4f children
       else if (tag =? "!color")%string then PColor <$> read_Color4f children
       else if (tag =? "!curve")%string then
         let n := length children in
         if bool_decide (n = 1 * NumElementsPerCurve)%nat
         then PCurve1 <$> ReadSequenceForCurve 1 children 0
         else if bool_decide (n = 2 * NumElementsPerCurve)%nat
         then PCurve2 <$> ReadSequenceForCurve 2 children 0
         else if bool_decide (n = 3 * NumElementsPerCurve)%nat
         then PCurve3 <$> ReadSequenceForCurve 3 children 0
         else if bool_decide (n = 4 * NumElementsPerCurve)%nat
         then PCurve4 <$> ReadSequenceForCurve 4 children 0
         else Err InvalidDataError
       else if (tag =? "!buffer_int")%string
       then PBufferInt <$> ReadSequenceForBuffer (ParseInt to_s32) children
       else if (tag =? "!buffer_f32")%string
       then PBufferF32 <$> ReadSequenceForBuffer ParseF32 children
       else if (tag =? "!buffer_u32")%string
       then PBufferU32 <$> ReadSequenceForBuffer (ParseInt to_u32) children
       else if (tag =? "!buffer_binary")%string
       then PBufferBinary <$> ReadSequenceForBuffer (ParseInt to_u8) children
       else if (tag =? "!quat")%string then PQuat <$> read_Quatf children
       else Err InvalidDataError)
  | NScalar tag scalar => Some <$> ScalarToValue tag scalar
  | NMap _ _ => Ok None
  end.

(** [child >> structure]: ryml reports an error when [read] returns
    false. *)
Definition deserialize {T} (read_T : Node -> result (option T)) (node : Node) : result T :=
  r ← read_T node;
  match r with
  | Some v => Ok v
  | None => Err RymlError
  end.

(** The key of a [ReadMap] entry: a [u64] is cast to [u32], a string is
    hashed (Modelled from the spec: [Name(std::string_view)] is the CRC32 of
    the string), any other scalar is refused. *)
Definition Name_of_key (key : Scalar) : result Z :=
  match key with
  | SInt hash => Ok (to_u32 hash)
  | SString str => Ok (crc32 str)
  | _ => Err InvalidDataError
  end.

Definition ReadMap_entries {T} (read_T : Node -> result (option T))
  : list (Scalar * Node) -> list (Z * T) -> result (list (Z * T)) :=
  fix loop entries map :=
    match entries with
    | [] => Ok map
    | (key, child) :: rest =>
        structure ← deserialize read_T child;
        name ← Name_of_key key;
        loop rest (map_emplace name structure map)
    end.

(** [ReadMap<T>(node, map)]: the loop over the children of [node].  A child
    of a sequence has no key, for which ryml reports an error; a scalar has
    no child. *)
Definition ReadMap {T} (read_T : Node -> result (option T)) (node : Node)
    (map : list (Z * T)) : result (list (Z * T)) :=
  match node with
  | NMap _ entries => ReadMap_entries read_T entries map
  | NSeq _ (_ :: _) => Err RymlError
  | _ => Ok map
  end.

Definition read_ParameterObject (node : Node) : result (option ParameterObject) :=
  match node with
  | NMap _ _ => params ← ReadMap read_Parameter node []; Ok (Some (mkParameterObject params))
  | _ => Ok None
  end.

Definition key_is (name : string) (key : Scalar) : bool :=
  match key with
  | SString s => (s =? name)%string
  | _ => false
  end.

(** [node.has_child(name)] *)
Definition has_child (name : string) (entries : list (Scalar * Node)) : bool :=
  existsb (fun e => key_is name e.1) entries.

(** [node[name]], handed to [k]: the first child under the key [name]. *)
Definition with_child {A} (name : string) (absent : A) (k : Node -> A)
  : list (Scalar * Node) -> A :=
  fix find entries :=
    match entries with
    | [] => absent
    | (key, child) :: rest => if key_is name key then k child else find rest
    end.

Fixpoint read_ParameterList (node : Node) : result (option ParameterList) :=
  match node with
  | NMap _ entries =>
      if has_child "objects" entries && has_child "lists" entries then
        with_child "objects" (Err RymlError) (fun objects_node =>
          with_child "lists" (Err RymlError) (fun lists_node =>
            objs ← ReadMap read_ParameterObject objects_node [];
            lsts ← ReadMap read_ParameterList lists_node [];
            Ok (Some (mkParameterList objs lsts))) entries) entries
      else Ok None
  | _ => Ok None
  end.

Definition read_ParameterIO (node : Node) : result (option ParameterIO) :=
  match node with
  | NMap _ entries =>
      if has_child "version" entries && has_child "type" entries
         && has_child "param_root" entries then
        version ← with_child "version" (Err RymlError) (ParseInt to_u32) entries;
        type ← with_child "type" (Err RymlError)
                 (fun n => s ← ParseScalar n; get_string s) entries;
        param_root ← with_child "param_root" (Err RymlError)
                       (deserialize read_ParameterList) entries;
        Ok (Some (mkParameterIO param_root version type))
      else Ok None
  | _ => Ok None
  end.

(** [ParameterIO::FromText], on the document the text denotes. *)
Definition FromText (document : Node) : result ParameterIO :=
  deserialize read_ParameterIO document.

(** *** Writing *)

(** The name tables [TextEmitter] works with: its own [m_extra_name_table]
    and the process-wide table of [GetDefaultNameTable()]. *)
Record EmitterState := mkEmitterState {
  m_extra_name_table : NameTable;
  default_name_table : NameTable;
}.

Definition to_u64 (v : Z) : Z := v mod 2 ^ 64.

(** The scalar events of [LibyamlEmitter], as the reader gets them back; an
    integer is read back as a [u64], a negative one in two's complement. *)
Definition EmitBool (v : bool) : Node := NScalar "" (SBool v).
Definition EmitInt (v : Z) (tag : string) : Node := NScalar tag (SInt (to_u64 v)).
Definition EmitFloat (v : f32) : Node := NScalar "" (SFloat (float_text_value v)).
Definition EmitString (v : string) (tag : string) : Node := NScalar tag (SString v).
Definition EmitSimpleSequence (items : list Node) (tag : string) : Node := NSeq tag items.

Definition BuildExtraNameTable_object (obj : ParameterObject) (t : NameTable) : NameTable :=
  foldl (fun t '(param_name, param) =>
           match string_value param with
           | Some s => AddNameReference s t
           | None => t
           end) t (params obj).

Fixpoint BuildExtraNameTable (list : ParameterList) (t : NameTable) : NameTable :=
  match list with
  | mkParameterList objects lists =>
      let t := foldl (fun t '(obj_name, obj) => BuildExtraNameTable_object obj t) t objects in
      foldl (fun t '(sub_list_name, sub_list) => BuildExtraNameTable sub_list t) t lists
  end.

(** [EmitName]: the key it emits, a string when one of the tables recovers
    the name, the hash otherwise. *)
Definition EmitName (name index parent_name : Z) (st : EmitterState)
  : Scalar * EmitterState :=
  match GetName name index parent_name (m_extra_name_table st) with
  | (Some name_str, extra) => (SString name_str, mkEmitterState extra (default_name_table st))
  | (None, extra) =>
      match GetName name index parent_name (default_name_table st) with
      | (Some name_str, table) => (SString name_str, mkEmitterState extra table)
      | (None, table) => (SInt name, mkEmitterState extra table)
      end
  end.

Definition EmitCurves (curves : list Curve) : Node :=
  NSeq "!curve"
    (curve ← curves;
     EmitInt (curve_a curve) "" :: EmitInt (curve_b curve) "" ::
       (EmitFloat <$> floats curve)).

Definition EmitParameter (param : Param) : Node :=
  match param with
  | PBool v => EmitBool v
  | PF32 v => EmitFloat v
  | PInt v => EmitInt v ""
  | PVec2 v => EmitSimpleSequence (EmitFloat <$> [v2_x v; v2_y v]) "!vec2"
  | PVec3 v => EmitSimpleSequence (EmitFloat <$> [v3_x v; v3_y v; v3_z v]) "!vec3"
  | PVec4 v => EmitSimpleSequence (EmitFloat <$> [v4_x v; v4_y v; v4_z v; v4_t v]) "!vec4"
  | PColor v => EmitSimpleSequence (EmitFloat <$> [col_r v; col_g v; col_b v; col_a v]) "!color"
  | PString32 v => EmitString v "!str32"
  | PString64 v => EmitString v "!str64"
  | PCurve1 v => EmitCurves v
  | PCurve2 v => EmitCurves v
  | PCurve3 v => EmitCurves v
  | PCurve4 v => EmitCurves v
  | PBufferInt v => EmitSimpleSequence ((fun x => EmitInt x "") <$> v) "!buffer_int"
  | PBufferF32 v => EmitSimpleSequence (EmitFloat <$> v) "!buffer_f32"
  | PString256 v => EmitString v "!str256"
  | PQuat v => EmitSimpleSequence (EmitFloat <$> [q_a v; q_b v; q_c v; q_d v]) "!quat"
  | PU32 v => EmitInt v "!u"
  | PBufferU32 v => EmitSimpleSequence ((fun x => EmitInt x "") <$> v) "!buffer_u32"
  | PBufferBinary v => EmitSimpleSequence ((fun x => EmitInt x "") <$> v) "!buffer_binary"
  | PStringRef v => EmitString v ""
  end.

(** The loop the three maps are written with,
    [size_t i = 0; for (const auto& [name, value] : map) { EmitName(name, i++, parent_name); emit_value(value, name); }],
    from the counter value [i]. *)
Definition emit_entries {V} (emit_value : V -> Z -> EmitterState -> Node * EmitterState)
    (parent_name : Z) : list (Z * V) -> Z -> EmitterState -> list (Scalar * Node) * EmitterState :=
  fix loop map i st :=
    match map with
    | [] => ([], st)
    | (name, value) :: rest =>
        let '(key, st) := EmitName name i parent_name st in
        let '(node, st) := emit_value value name st in
        let '(entries, st) := loop rest (i + 1) st in
        ((key, node) :: entries, st)
    end.

Definition EmitParameterObject (pobject : ParameterObject) (parent_name : Z)
    (st : EmitterState) : Node * EmitterState :=
  let '(entries, st) :=
    emit_entries (fun param _ st => (EmitParameter param, st)) parent_name
      (params pobject) 0 st in
  (NMap "!obj" entries, st).

Fixpoint EmitParameterList (plist : ParameterList) (parent_name : Z)
    (st : EmitterState) : Node * EmitterState :=
  match plist with
  | mkParameterList objects lists =>
      let '(objs, st) :=
        emit_entries (fun object name st => EmitParameterObject object name st)
          parent_name objects 0 st in
      let '(lsts, st) :=
        emit_entries (fun list name st => EmitParameterList list name st)
          parent_name lists 0 st in
      (NMap "!list" [(SString "objects", NMap "" objs); (SString "lists", NMap "" lsts)], st)
  end.

Definition EmitParameterIO (pio : ParameterIO) (st : EmitterState) : Node * EmitterState :=
  let '(root, st) := EmitParameterList (io_list pio) ParamRootKey st in
  (NMap "!io" [(SString "version", EmitInt (version pio) "");
               (SString "type", EmitString (type pio) "");
               (SString "param_root", root)], st).

(** [TextEmitter::Emit]: the extra name table is rebuilt from the strings
    of [pio], then the document is written. *)
Definition Emit (pio : ParameterIO) (default_table : NameTable) : Node * EmitterState :=
  EmitParameterIO pio
    (mkEmitterState (BuildExtraNameTable (io_list pio) empty_table) default_table).

(** [ParameterIO::ToText]: the document, and the default name table as the
    call leaves it. *)
Definition ToText (pio : ParameterIO) (default_table : NameTable) : Node * NameTable :=
  let '(document, st) := Emit pio default_table in
  (document, default_name_table st).

End Model.

(** [float(value)] on a [double] whose value is an integer: the nearest
    integer with at most 24 significant bits, a tie going to the even one.
    The exponent range of [float] is not modelled. *)
Definition round_f32 (v : Z) : Z :=
  let dropped := Z.max 0 (Z.log2 (Z.abs v) + 1 - 24) in
  let unit := 2 ^ dropped in
  let q := Z.abs v / unit in
  let r := Z.abs v mod unit in
  let q' :=
    if 2 * r <? unit then q
    else if unit <? 2 * r then q + 1
    else if Z.even q then q else q + 1 in
  Z.sgn v * (q' * unit).

(** An instance to compute examples with: floats whose values are
    integers.  An [f32] that holds a [float], an integer of at most 24
    significant bits, is written as that integer and read back as it; the
    other values of the carrier are no [float], and the conversion rounds
    them. *)
Definition integral_floats : FloatModel :=
  {| f32 := Z; f64 := Z; f64_to_f32 := round_f32; float_text_value := fun v => v |}.

(** The tree of the specification's scenario 3, with a list "EnemyList"
    added that holds the objects "Enemy_0", "Enemy_1" and some other
    parameters. *)
Definition example_io : @ParameterIO integral_floats :=
  mkParameterIO
    (mkParameterList
       [(crc32 "TestObj",
         mkParameterObject
           [(crc32 "Position", PVec3 (@mkVector3f integral_floats 1 2 3));
            (crc32 "Name", PStringRef "EnemyList")])]
       [(crc32 "EnemyList",
         mkParameterList
           [(crc32 "Enemy_0",
             mkParameterObject
               [(crc32 "Life", PInt (-5)); (crc32 "Mask", PU32 0xFFFFFFFF);
                (crc32 "Tag", PString32 "12")]);
            (crc32 "Enemy_1",
             mkParameterObject
               [(12345, PBufferBinary [1; 2; 255]);
                (crc32 "Curve", PCurve1 [@mkCurve integral_floats 1 2 (replicate 30 7)])])]
           [])])
    0 "xlink".

(** ** Well-formed trees and specification-side definitions *)

Section Specification.

Context `{FloatModel}.

(** The invariants of the C++ types: integers are in the range of their
    type, a [FixedSafeString<N>] holds at most [N - 1] bytes, a
    [std::array<Curve, K>] has [K] curves of 30 floats each. *)
Definition wf_Curve (c : Curve) : Prop :=
  is_u32 (curve_a c) /\ is_u32 (curve_b c) /\ length (floats c) = 30%nat.

Definition wf_Curves (K : nat) (v : list Curve) : Prop :=
  length v = K /\ Forall wf_Curve v.

Definition wf_Param (p : Param) : Prop :=
  match p with
  | PInt v => is_s32 v
  | PU32 v => is_u32 v
  | PString32 v => (String.length v <= 31)%nat
  | PString64 v => (String.length v <= 63)%nat
  | PString256 v => (String.length v <= 255)%nat
  | PCurve1 v => wf_Curves 1 v
  | PCurve2 v => wf_Curves 2 v
  | PCurve3 v => wf_Curves 3 v
  | PCurve4 v => wf_Curves 4 v
  | PBufferInt v => Forall is_s32 v
  | PBufferU32 v => Forall is_u32 v
  | PBufferBinary v => Forall is_u8 v
  | _ => True
  end.

(** An ordered map: its keys are [u32] values, each at most once. *)
Definition wf_map {V} (wf_V : V -> Prop) (m : list (Z * V)) : Prop :=
  NoDup m.*1 /\ Forall (fun kv => is_u32 kv.1 /\ wf_V kv.2) m.

Definition wf_ParameterObject (o : ParameterObject) : Prop :=
  wf_map wf_Param (params o).

Inductive wf_ParameterList : ParameterList -> Prop :=
| wf_mkParameterList objs lsts :
    wf_map wf_ParameterObject objs ->
    NoDup lsts.*1 ->
    Forall (fun kv => is_u32 kv.1) lsts ->
    Forall (fun kv => wf_ParameterList kv.2) lsts ->
    wf_ParameterList (mkParameterList objs lsts).

Definition wf_ParameterIO (pio : ParameterIO) : Prop :=
  is_u32 (version pio) /\ wf_ParameterList (io_list pio).

(** A float survives the text when the [f64] that is read from the scalar
    [EmitFloat] writes for it is converted back to it. *)
Definition float_exact (v : f32) : Prop := f64_to_f32 (float_text_value v) = v.





(** The ten tags a sequence can be read under. *)
Definition sequence_tags : list string :=
  ["!vec2"; "!vec3"; "!vec4"; "!color"; "!quat"; "!curve";
   "!buffer_int"; "!buffer_f32"; "!buffer_u32"; "!buffer_binary"].

(** The number of fields of the structures that are read from a sequence of
    fixed size. *)
Definition fixed_size (tag : string) : option nat :=
  if (tag =? "!vec2")%string then Some 2%nat
  else if (tag =? "!vec3")%string then Some 3%nat
  else if (tag =? "!vec4")%string then Some 4%nat
  else if (tag =? "!color")%string then Some 4%nat
  else if (tag =? "!quat")%string then Some 4%nat
  else None.

Definition curve_lengths : list nat := [32; 64; 96; 128]%nat.

(** The sequences [read] refuses with [InvalidDataError], by tag and number
    of children. *)
Definition invalid_sequence (tag : string) (n : nat) : Prop :=
  tag ∉ sequence_tags \/
  (tag = "!curve" /\ n ∉ curve_lengths) \/
  (exists k, fixed_size tag = Some k /\ n <> k).

(** The tag of the sequence a parameter is written as. *)
Definition sequence_tag_of (p : Param) : option string :=
  match p with
  | PVec2 _ => Some "!vec2"
  | PVec3 _ => Some "!vec3"
  | PVec4 _ => Some "!vec4"
  | PColor _ => Some "!color"
  | PQuat _ => Some "!quat"
  | PCurve1 _ | PCurve2 _ | PCurve3 _ | PCurve4 _ => Some "!curve"
  | PBufferInt _ => Some "!buffer_int"
  | PBufferF32 _ => Some "!buffer_f32"
  | PBufferU32 _ => Some "!buffer_u32"
  | PBufferBinary _ => Some "!buffer_binary"
  | _ => None
  end.

(** [Curve[K]], for [K] from 1 to 4. *)
Definition PCurve (K : nat) (v : list Curve) : option Param :=
  match K with
  | 1 => Some (PCurve1 v)
  | 2 => Some (PCurve2 v)
  | 3 => Some (PCurve3 v)
  | 4 => Some (PCurve4 v)
  | _ => None
  end%nat.

(** The 32 elements of one curve as scalars of the kinds its slots expect:
    two integers, then 30 floats. *)
Record CurveScalars := mkCurveScalars {
  scalar_a : Z;
  scalar_b : Z;
  scalar_floats : list f64;
}.

Definition curve_nodes (c : CurveScalars) : list Node :=
  NScalar "" (SInt (scalar_a c)) :: NScalar "" (SInt (scalar_b c)) ::
    ((fun d => NScalar "" (SFloat d)) <$> scalar_floats c).

Definition curve_of_scalars (c : CurveScalars) : Curve :=
  mkCurve (to_u32 (scalar_a c)) (to_u32 (scalar_b c)) (f64_to_f32 <$> scalar_floats c).

Definition is_int_node (n : Node) : bool :=
  match n with
  | NScalar _ (SInt _) => true
  | _ => false
  end.

Definition is_float_node (n : Node) : bool :=
  match n with
  | NScalar _ (SFloat _) => true
  | _ => false
  end.

(** The kind of scalar the reader takes from position [i] of a sequence
    under [tag]: an integer in the integer buffers and in the first two slots
    of each curve, a float elsewhere. *)
Definition expects_int (tag : string) (i : nat) : bool :=
  if (tag =? "!buffer_int")%string || (tag =? "!buffer_u32")%string
     || (tag =? "!buffer_binary")%string then true
  else if (tag =? "!curve")%string then (i mod 32 <? 2)%nat
  else false.

Definition well_kinded (tag : string) (children : list Node) : Prop :=
  forall i c, children !! i = Some c ->
    if expects_int tag i then is_int_node c = true else is_float_node c = true.

(** Every child is a float scalar. *)
Definition floats_at (children : list Node) : Prop :=
  forall i c, children !! i = Some c -> is_float_node c = true.


End Specification.

(** ** The writer, as the specification words it *)

Section WriterSpecification.

Context `{FloatModel}.

(** [s] is the value of a string-typed parameter somewhere in the tree. *)
Inductive StringValueIn (s : string) : ParameterList -> Prop :=
| string_in_object objs lsts k o kp p :
    (k, o) ∈ objs -> (kp, p) ∈ params o -> string_value p = Some s ->
    StringValueIn s (mkParameterList objs lsts)
| string_in_sub_list objs lsts k sub :
    (k, sub) ∈ lsts -> StringValueIn s sub ->
    StringValueIn s (mkParameterList objs lsts).

(** The lookup of a name by [GetName(hash, index, parent)], in the table of
    the document first and in the default table if that one fails. *)
Definition lookup_name (hash index parent : Z) (st : EmitterState)
  : option string * EmitterState :=
  let '(found, extra) := GetName hash index parent (m_extra_name_table st) in
  match found with
  | Some s => (Some s, mkEmitterState extra (default_name_table st))
  | None =>
      let '(found, table) := GetName hash index parent (default_name_table st) in
      (found, mkEmitterState extra table)
  end.

(** "If the lookup succeeds, emit the string; otherwise emit the integer
    hash", for the entry at the 0-based [position] of its map. *)
Definition spec_emit_key (hash : Z) (position : nat) (parent : Z) (st : EmitterState)
  : Scalar * EmitterState :=
  let '(found, st) := lookup_name hash (Z.of_nat position) parent st in
  (match found with
   | Some s => SString s
   | None => SInt hash
   end, st).

(** The entries of a map, each with its 0-based position in the iteration:
    the key of the entry is emitted, then its value. *)
Definition spec_emit_entries {V} (emit_value : V -> Z -> EmitterState -> Node * EmitterState)
    (parent : Z) (map : list (Z * V)) (st : EmitterState)
  : list (Scalar * Node) * EmitterState :=
  foldl (fun acc '(position, (name, value)) =>
           let '(entries, st) := acc in
           let '(key, st) := spec_emit_key name position parent st in
           let '(node, st) := emit_value value name st in
           (entries ++ [(key, node)], st))
    ([], st) (zip (seq 0 (length map)) map).



End WriterSpecification.

(** ** More specification-side definitions *)

Definition newline : ascii := "010"%char.

(** The text of a file whose lines are [lines], each ended by a newline. *)
Definition join_lines (lines : list string) : string :=
  foldr (fun line rest => line +:+ String newline rest) "" lines.

(** A line as [SplitStringByLine] hands it to its callback: not empty and
    without a newline. *)
Definition is_line (line : string) : Prop :=
  line <> "" /\ newline ∉ list_ascii_of_string line.

(** The prefixes [GetName] builds candidates on when the parent's name is
    [P], in order: [P] itself, "Children", and [P] without each of the
    suffixes "s", "es", "List" it ends with. *)
Definition prefixes (P : string) : list string :=
  P :: "Children" :: (strip_suffix P <$> filter (fun suffix => EndsWith P suffix = true)
                                            ["s"; "es"; "List"]).

(** The candidates of the last resort: every numbered name at every [i]
    from 0 below [index + 2]. *)
Definition numbered_candidates (index : Z) (t : NameTable) : list string :=
  name ← numbered_names t;
  i ← seqZ 0 (index + 2);
  [StrFormat name [ArgInt i]].

(** Every name [GetName] tries for a hash that is in neither dictionary, in
    the order it tries them. *)
Definition all_candidates (index parent : Z) (t : NameTable) : list string :=
  match names t !! parent with
  | Some P => prefixes P ≫= (fun prefix => candidates prefix index)
  | None => []
  end ++ numbered_candidates index t.

(** What a [GetName] call may do to a table: [names] and [numbered_names]
    stay, [owned_names] keeps its entries, consistency is kept. *)
Definition grows (t t' : NameTable) : Prop :=
  names t' = names t /\
  numbered_names t' = numbered_names t /\
  owned_names t ⊆ owned_names t' /\
  (consistent t -> consistent t').

(** The names a table has gained come from a set [R] of strings. *)
Definition gained (R : string -> Prop) (t t' : NameTable) : Prop :=
  owned_names t' = owned_names t /\
  numbered_names t' = numbered_names t /\
  forall h s, names t' !! h = Some s ->
    names t !! h = Some s \/ (R s /\ crc32 s = h).

Section TreeSpecification.

Context `{FloatModel}.

(** What the loop of [ReadMap] does with one child: the child is read, then
    its key is turned into a name hash. *)
Definition parse_entry {T} (read_T : Node -> result (option T)) (entry : Scalar * Node)
  : result (Z * T) :=
  let '(key, child) := entry in
  structure ← deserialize read_T child;
  name ← Name_of_key key;
  Ok (name, structure).

(** The entries put into a map one after the other. *)
Definition emplace_all {T} (map : list (Z * T)) (parsed : list (Z * T)) : list (Z * T) :=
  foldl (fun m '(name, structure) => map_emplace name structure m) map parsed.

(** [node.is_map()] with the three children [read] asks for. *)
Definition is_io_map (node : Node) : bool :=
  match node with
  | NMap _ entries =>
      has_child "version" entries && has_child "type" entries
      && has_child "param_root" entries
  | _ => false
  end.

Definition is_list_map (node : Node) : bool :=
  match node with
  | NMap _ entries => has_child "objects" entries && has_child "lists" entries
  | _ => false
  end.

Definition is_map (node : Node) : bool :=
  match node with
  | NMap _ _ => true
  | _ => false
  end.

(** The type [RecognizeTag] must give for the tag of a scalar for it to be
    read back as the same alternative of [yml::Scalar]. *)
Definition scalar_type (v : Scalar) : TagBasedType :=
  match v with
  | SNull => TNull
  | SBool _ => TBool
  | SInt _ => TInt
  | SFloat _ => TFloat
  | SString _ => TStr
  end.

(** An emitter of values under which the default table only grows. *)
Definition value_grows {V} (emit_value : V -> Z -> EmitterState -> Node * EmitterState)
    (v : V) : Prop :=
  forall name st,
    grows (default_name_table st) (default_name_table (emit_value v name st).2).

(** The shape of the documents the reader takes: a key is a string or an
    integer, a parameter is a scalar or a sequence, an object is a map
    tagged [!obj], a list is a map tagged [!list] with the children
    "objects" and "lists", both untagged maps, and the document is a map
    tagged [!io] with an integer "version", a string "type" and a list
    "param_root". *)
Definition is_name_key (key : Scalar) : bool :=
  match key with
  | SString _ | SInt _ => true
  | _ => false
  end.

Definition is_param_node (node : Node) : bool :=
  match node with
  | NMap _ _ => false
  | _ => true
  end.

Definition object_shape (node : Node) : bool :=
  match node with
  | NMap tag entries =>
      (tag =? "!obj")%string
      && forallb (fun '(key, child) => is_name_key key && is_param_node child) entries
  | _ => false
  end.

Fixpoint list_shape (node : Node) : bool :=
  match node with
  | NMap tag [(k1, NMap t1 objs); (k2, NMap t2 lsts)] =>
      (tag =? "!list")%string
      && key_is "objects" k1 && key_is "lists" k2
      && (t1 =? "")%string && (t2 =? "")%string
      && forallb (fun '(key, child) => is_name_key key && object_shape child) objs
      && forallb (fun '(key, child) => is_name_key key && list_shape child) lsts
  | _ => false
  end.

Definition io_shape (node : Node) : bool :=
  match node with
  | NMap tag [(k1, NScalar t1 (SInt _)); (k2, NScalar t2 (SString _)); (k3, root)] =>
      (tag =? "!io")%string
      && key_is "version" k1 && key_is "type" k2 && key_is "param_root" k3
      && (t1 =? "")%string && (t2 =? "")%string
      && list_shape root
  | _ => false
  end.

End TreeSpecification.

(** ** Properties of the name table *)

Section NameTableFacts.

Implicit Types (t : NameTable) (hash index parent : Z) (name : string).

Lemma first_return_app {A B} (body : A -> option B) l1 l2 :
  first_return body (l1 ++ l2) =
  match first_return body l1 with
  | Some r => Some r
  | None => first_return body l2
  end.
Proof.
  induction l1 as [|x l1 IH]; cbn; [done|].
  destruct (body x); [done|apply IH].
Qed.

Lemma first_return_bind {A B C} (body : B -> option C) (f : A -> list B) l :
  first_return body (l ≫= f) = first_return (fun x => first_return body (f x)) l.
Proof.
  induction l as [|x l IH]; cbn; [done|].
  rewrite first_return_app, IH. by destruct (first_return body (f x)).
Qed.

Lemma first_return_ext {A B} (body1 body2 : A -> option B) l :
  (forall x, body1 x = body2 x) -> first_return body1 l = first_return body2 l.
Proof. intros E. induction l as [|x l IH]; cbn; [done|]. by rewrite E, IH. Qed.

Lemma first_return_Some {A B} (body : A -> option B) l r :
  first_return body l = Some r -> exists x, x ∈ l /\ body x = Some r.
Proof.
  induction l as [|x l IH]; cbn; [done|].
  destruct (body x) eqn:E.
  - intros [= <-]. exists x. split; [left|done].
  - intros [y [Hy Hb]]%IH. exists y. split; [by right|done].
Qed.

(** A loop that returns [f c] at the first candidate [c] passing a test is
    a search for that candidate. *)
Lemma first_return_find {B} (P : string -> Prop) `{!forall c, Decision (P c)}
    (f : string -> B) (l : list string) :
  first_return (fun c => if bool_decide (P c) then Some (f c) else None) l =
  (fun kc => f kc.2) <$> list_find P l.
Proof.
  induction l as [|c l IH]; cbn; [done|].
  rewrite IH. clear IH. destruct (decide (P c)) as [Hc|Hc].
  - by rewrite bool_decide_eq_true_2.
  - rewrite bool_decide_eq_false_2 by done.
    by destruct (list_find P l) as [[k c']|].
Qed.

Lemma test_names_find hash index t prefix :
  test_names hash index t prefix =
  (fun kc => AddName hash kc.2 t) <$>
    list_find (fun c => crc32 c = hash) (candidates prefix index).
Proof.
  rewrite <- (first_return_find (fun c => crc32 c = hash) (fun c => AddName hash c t)).
  unfold test_names, candidates.
  rewrite first_return_bind. apply first_return_ext. intros i.
  rewrite first_return_bind. apply first_return_ext. intros format.
  cbn. by destruct (bool_decide _).
Qed.

Lemma AddName_fresh hash name t :
  owned_names t !! hash = None -> AddName hash name t = (name, with_owned hash name t).
Proof.
  intros H. unfold AddName, emplace, with_owned. rewrite H.
  by rewrite lookup_insert_eq.
Qed.

Lemma test_names_Some hash index t prefix r :
  test_names hash index t prefix = Some r ->
  exists c, crc32 c = hash /\ r = AddName hash c t.
Proof.
  rewrite test_names_find.
  destruct (list_find _ _) as [[k c]|] eqn:E; cbn; [|done].
  intros [= <-]. apply list_find_Some in E as (_ & Hc & _). by exists c.
Qed.

Lemma guess_from_parent_Some hash index t P r :
  guess_from_parent hash index t P = Some r ->
  exists c, crc32 c = hash /\ r = AddName hash c t.
Proof.
  unfold guess_from_parent.
  destruct (test_names hash index t P) eqn:E1.
  { intros [= <-]. by eapply test_names_Some. }
  destruct (test_names hash index t "Children") eqn:E2.
  { intros [= <-]. by eapply test_names_Some. }
  intros (suffix & _ & H)%first_return_Some.
  destruct (EndsWith P suffix); [|done]. by eapply test_names_Some.
Qed.

Lemma guess_from_numbered_Some hash index t r :
  guess_from_numbered hash index t = Some r ->
  exists c, crc32 c = hash /\ r = AddName hash c t.
Proof.
  unfold guess_from_numbered.
  intros (fmt & _ & (i & _ & H)%first_return_Some)%first_return_Some.
  cbn in H. case_bool_decide; [|done]. injection H as <-. eauto.
Qed.

(** What a call can do: it leaves the table alone, or it has guessed a name
    of the right CRC32 for a hash that neither dictionary knew, and stored
    it in [owned_names]. *)
Lemma GetName_cases hash index parent t r t' :
  GetName hash index parent t = (r, t') ->
  (t' = t /\ (r = names t !! hash \/
              names t !! hash = None /\ r = owned_names t !! hash)) \/
  (exists c, r = Some c /\ crc32 c = hash /\ names t !! hash = None /\
             owned_names t !! hash = None /\ t' = with_owned hash c t).
Proof.
  unfold GetName.
  destruct (names t !! hash) as [n|] eqn:En.
  { intros [= <- <-]. left. eauto. }
  destruct (owned_names t !! hash) as [n|] eqn:Eo.
  { intros [= <- <-]. left. eauto. }
  set (g := match names t !! parent with Some _ => _ | None => _ end).
  assert (Hg : forall x, g = Some x -> exists c, crc32 c = hash /\ x = AddName hash c t).
  { subst g. intros x. destruct (names t !! parent); [|done].
    apply guess_from_parent_Some. }
  destruct g as [[n t1]|].
  - destruct (Hg _ eq_refl) as (c & Hc & E). rewrite AddName_fresh in E by done.
    injection E as -> ->. intros [= <- <-]. right. exists c. eauto 10.
  - clear Hg. destruct (guess_from_numbered hash index t) as [[n t1]|] eqn:Eg.
    + apply guess_from_numbered_Some in Eg as (c & Hc & E).
      rewrite AddName_fresh in E by done.
      injection E as -> ->. intros [= <- <-]. right. exists c. eauto 10.
    + intros [= <- <-]. left. split; [done|]. right. eauto.
Qed.

Lemma GetName_resolved hash index parent t name :
  resolved hash name t -> GetName hash index parent t = (Some name, t).
Proof. unfold GetName. by intros [->|[-> ->]]. Qed.

Lemma GetName_makes_resolved hash index parent t name t' :
  GetName hash index parent t = (Some name, t') -> resolved hash name t'.
Proof.
  intros [[-> [H|[Hn H]]]|(c & [= ->] & _ & Hn & _ & ->)]%GetName_cases.
  - by left.
  - by right.
  - right. split; [done|]. cbn. apply lookup_insert_eq.
Qed.

Lemma GetName_keeps_resolved h i p hash name t :
  resolved hash name t -> resolved hash name (GetName h i p t).2.
Proof.
  destruct (GetName h i p t) as [r t'] eqn:E. cbn.
  apply GetName_cases in E as [[-> _]|(c & _ & _ & Hn & Ho & ->)]; [done|].
  intros [H|[H1 H2]]; [by left|]. right. split; [done|]. cbn.
  rewrite lookup_insert_ne; [done|]. intros ->. congruence.
Qed.

Lemma GetName_consistent hash index parent t :
  consistent t -> consistent (GetName hash index parent t).2.
Proof.
  destruct (GetName hash index parent t) as [r t'] eqn:E. cbn.
  apply GetName_cases in E as [[-> _]|(c & _ & Hc & _ & _ & ->)]; [done|].
  intros [H1 H2]. split; [done|]. cbn. intros h s.
  destruct (decide (hash = h)) as [->|Hne].
  - rewrite lookup_insert_eq. by intros [= <-].
  - rewrite lookup_insert_ne by done. apply H2.
Qed.

Lemma GetName_crc hash index parent t name :
  consistent t -> (GetName hash index parent t).1 = Some name -> crc32 name = hash.
Proof.
  destruct (GetName hash index parent t) as [r t'] eqn:E. cbn.
  intros [H1 H2] ->.
  apply GetName_cases in E as [[_ [H|[_ H]]]|(c & [= ->] & Hc & _)]; eauto.
Qed.

Lemma emplace_keeps k v (m : gmap Z string) h x :
  m !! h = Some x -> emplace k v m !! h = Some x.
Proof.
  intros Hm. unfold emplace. destruct (m !! k) eqn:E; [done|].
  rewrite lookup_insert_ne; [done|]. intros ->. congruence.
Qed.

Lemma emplace_is_Some k v (m : gmap Z string) : is_Some (emplace k v m !! k).
Proof.
  unfold emplace. destruct (m !! k) eqn:E; [by rewrite E|].
  rewrite lookup_insert_eq. eauto.
Qed.

Lemma AddName_keeps_resolved h n hash name t :
  resolved hash name t -> resolved hash name (AddName h n t).2.
Proof.
  intros [H|[H1 H2]]; [by left|]. right. split; [done|]. cbn.
  by apply emplace_keeps.
Qed.

Lemma AddNameReference_keeps_resolved n hash name t :
  keeps_name hash name (CallAddNameReference n) = true ->
  resolved hash name t -> resolved hash name (AddNameReference n t).
Proof.
  intros Hk [H|[H1 H2]]; [left; by apply emplace_keeps|].
  unfold resolved. cbn [AddNameReference names owned_names]. unfold emplace.
  destruct (names t !! crc32 n) eqn:En; [by right|].
  destruct (decide (crc32 n = hash)) as [Heq|Hne].
  - left. cbn in Hk. rewrite <- Heq, Z.eqb_refl in Hk. cbn in Hk.
    apply String.eqb_eq in Hk as ->. rewrite <- Heq. apply lookup_insert_eq.
  - right. split; [|done]. by rewrite lookup_insert_ne.
Qed.

Lemma run_calls_keep_resolved calls hash name t :
  forallb (keeps_name hash name) calls = true ->
  resolved hash name t -> resolved hash name (run_calls calls t).
Proof.
  revert t. induction calls as [|c calls IH]; intros t Hk H; [done|].
  cbn in Hk. apply andb_true_iff in Hk as [Hc Hk].
  cbn. apply IH; [done|]. destruct c as [h i p|h n|n]; cbn [run_call].
  - by apply GetName_keeps_resolved.
  - by apply AddName_keeps_resolved.
  - by apply AddNameReference_keeps_resolved.
Qed.

Lemma AddNameReference_consistent s t : consistent t -> consistent (AddNameReference s t).
Proof.
  intros [H1 H2]. split; [|done]. cbn. intros h x. unfold emplace.
  destruct (names t !! crc32 s) eqn:E; [apply H1|].
  destruct (decide (crc32 s = h)) as [<-|Hne].
  - rewrite lookup_insert_eq. by intros [= <-].
  - rewrite lookup_insert_ne by done. apply H1.
Qed.

(** The tables of this file are consistent: the constructor builds a
    consistent table, and [AddNameReference] and [GetName] (above) keep it
    so. *)
Lemma emplace_consistent name (m : gmap Z string) :
  (forall h s, m !! h = Some s -> crc32 s = h) ->
  forall h s, emplace (crc32 name) name m !! h = Some s -> crc32 s = h.
Proof.
  intros Hm h s. unfold emplace. destruct (m !! crc32 name) eqn:E; [apply Hm|].
  destruct (decide (crc32 name = h)) as [<-|Hne].
  - rewrite lookup_insert_eq. by intros [= <-].
  - rewrite lookup_insert_ne by done. apply Hm.
Qed.

Example SplitStringByLine_skips_empty_lines :
  SplitStringByLine ("Foo" +:+ String "010" (String "010" "Bar%d")) = ["Foo"; "Bar%d"].
Proof. reflexivity. Qed.

Lemma NameTable_new_consistent with_botw_strings hashed_names_f numbered_names_f :
  consistent (NameTable_new with_botw_strings hashed_names_f numbered_names_f).
Proof.
  assert (He : forall h s, (∅ : gmap Z string) !! h = Some s -> crc32 s = h)
    by (intros h s; by rewrite lookup_empty).
  unfold NameTable_new. destruct with_botw_strings; [|by split].
  split; [|done]. cbn [names].
  generalize (SplitStringByLine hashed_names_f). intros lines.
  revert He. generalize (∅ : gmap Z string).
  induction lines as [|name lines IH]; intros m Hm; [done|].
  cbn [foldl]. apply IH. by apply emplace_consistent.
Qed.


End NameTableFacts.

(** ** Claims about [NameTable::GetName] *)

(** C3.  With "FooList" in the dictionary under its CRC32 and no entry for
    the CRC32 of "Foo_1" in [names] or [owned_names],
    [GetName(crc32("Foo_1"), 1, crc32("FooList"))] returns "Foo_1": no
    candidate built on "FooList" or on "Children" has that CRC32, the suffix
    "List" is stripped, and the pattern [%s_%d] at [i = index] matches.  The
    name is stored in [owned_names]. *)
Theorem GetName_Foo_1 (t : NameTable) :
  names t !! crc32 "FooList" = Some "FooList" ->
  names t !! crc32 "Foo_1" = None ->
  owned_names t !! crc32 "Foo_1" = None ->
  GetName (crc32 "Foo_1") 1 (crc32 "FooList") t =
    (Some "Foo_1", with_owned (crc32 "Foo_1") "Foo_1" t).
Proof.
  intros Hp Hn Ho. unfold GetName. rewrite Hn, Ho, Hp.
  assert (E1 : list_find (fun c => crc32 c = crc32 "Foo_1") (candidates "FooList" 1) = None)
    by (vm_compute; reflexivity).
  assert (E2 : list_find (fun c => crc32 c = crc32 "Foo_1") (candidates "Children" 1) = None)
    by (vm_compute; reflexivity).
  assert (E3 : list_find (fun c => crc32 c = crc32 "Foo_1") (candidates "Foo" 1)
               = Some (1%nat, "Foo_1"))
    by (vm_compute; reflexivity).
  unfold guess_from_parent. rewrite !test_names_find, E1, E2. cbn [fmap option_fmap option_map].
  cbn [first_return].
  change (EndsWith "FooList" "s") with false.
  change (EndsWith "FooList" "es") with false.
  change (EndsWith "FooList" "List") with true.
  change (strip_suffix "FooList" "List") with "Foo". cbv iota.
  rewrite test_names_find, E3. cbn [fmap option_fmap option_map snd].
  by rewrite AddName_fresh.
Qed.

Lemma GetName_Foo_1_witness :
  GetName (crc32 "Foo_1") 1 (crc32 "FooList") (AddNameReference "FooList" empty_table) =
    (Some "Foo_1",
     with_owned (crc32 "Foo_1") "Foo_1" (AddNameReference "FooList" empty_table)).
Proof. apply GetName_Foo_1; vm_compute; reflexivity. Defined.

(** C5, as the specification words it: with the six patterns in the outer
    loop and [i] in the inner loop, the first candidate of the right CRC32
    would be "Ehzyoyfa1" here; the source, which loops over [i] outside,
    returns "Ehzyoyfa_0" (both names have the CRC32 0x7900d840). *)
Lemma GetName_order_counterexample :
  let t := AddNameReference "Ehzyoyfa" empty_table in
  let hash := 0x7900d840 in
  names t !! crc32 "Ehzyoyfa" = Some "Ehzyoyfa" /\
  names t !! hash = None /\
  owned_names t !! hash = None /\
  snd <$> list_find (fun c => crc32 c = hash) (spec_candidates "Ehzyoyfa" 0)
    = Some "Ehzyoyfa1" /\
  (GetName hash 0 (crc32 "Ehzyoyfa") t).1 = Some "Ehzyoyfa_0".
Proof. vm_compute. repeat split; reflexivity. Qed.

(** C5, amended.  When [hash] is in neither dictionary and
    [parent_name_hash] resolves in [names] to a parent name [P], [GetName]
    goes through the candidates with [i] over [index], [index + 1] in the
    outer loop and the six patterns, in their listed order, in the inner loop;
    the first candidate whose CRC32 equals [hash] is stored in [owned_names]
    and returned. *)
Theorem GetName_first_candidate (t : NameTable) (hash index parent : Z)
    (P c : string) (k : nat) :
  names t !! hash = None ->
  owned_names t !! hash = None ->
  names t !! parent = Some P ->
  list_find (fun c => crc32 c = hash) (candidates P index) = Some (k, c) ->
  GetName hash index parent t = (Some c, with_owned hash c t).
Proof.
  intros Hn Ho Hp Hc. unfold GetName, guess_from_parent.
  rewrite Hn, Ho, Hp, test_names_find, Hc. cbn [fmap option_fmap option_map snd].
  by rewrite AddName_fresh.
Qed.

Lemma GetName_first_candidate_witness :
  let t := AddNameReference "Ehzyoyfa" empty_table in
  GetName 0x7900d840 0 (crc32 "Ehzyoyfa") t =
    (Some "Ehzyoyfa_0", with_owned 0x7900d840 "Ehzyoyfa_0" t).
Proof.
  intros t.
  apply (GetName_first_candidate t 0x7900d840 0 (crc32 "Ehzyoyfa") "Ehzyoyfa"
           "Ehzyoyfa_0" 1); vm_compute; reflexivity.
Defined.

(** C10.  The parent's name is looked up in [names] only.  When the
    parent's hash is known to [owned_names] alone (its name was itself
    guessed), [GetName] makes no parent-derived guess: after the two direct
    lookups of [hash] it goes straight to the scan of the numbered names. *)
Theorem GetName_parent_only_owned (t : NameTable) (hash index parent : Z) (P : string) :
  names t !! parent = None ->
  owned_names t !! parent = Some P ->
  GetName hash index parent t =
    match names t !! hash with
    | Some name => (Some name, t)
    | None =>
        match owned_names t !! hash with
        | Some name => (Some name, t)
        | None =>
            match guess_from_numbered hash index t with
            | Some (name, t') => (Some name, t')
            | None => (None, t)
            end
        end
    end.
Proof.
  intros Hp _. unfold GetName. rewrite Hp.
  destruct (names t !! hash); [reflexivity|].
  destruct (owned_names t !! hash); reflexivity.
Qed.

(** "FooList" is known to [owned_names] only: "Foo_1", which the parent
    would give away, is not recovered. *)
Lemma GetName_parent_only_owned_witness :
  let t := with_owned (crc32 "FooList") "FooList" empty_table in
  GetName (crc32 "Foo_1") 1 (crc32 "FooList") t = (None, t).
Proof.
  intros t.
  etrans;
    [apply (GetName_parent_only_owned t (crc32 "Foo_1") 1 (crc32 "FooList") "FooList")|];
    vm_compute; reflexivity.
Defined.

(** ** Facts about the reader *)

Section ReaderFacts.

Context `{FloatModel}.

Lemma to_u32_to_u64 v : is_u32 v -> to_u32 (to_u64 v) = v.
Proof.
  unfold is_u32, to_u32, to_u64. intros Hv.
  rewrite (Z.mod_small v (2 ^ 64)) by lia. apply Z.mod_small. lia.
Qed.


Lemma to_u32_idem v : to_u32 (to_u32 v) = to_u32 v.
Proof. unfold to_u32. apply Z.mod_mod. lia. Qed.

Lemma to_u32_range v : is_u32 (to_u32 v).
Proof. unfold is_u32, to_u32. apply Z.mod_pos_bound. lia. Qed.


(** The exceptions of the element readers are never [InvalidDataError]. *)
Lemma ParseF32_not_invalid c : ParseF32 c <> Err InvalidDataError.
Proof. by destruct c as [tag [| | | |]| |]. Qed.

Lemma ParseInt_not_invalid conv c : ParseInt conv c <> Err InvalidDataError.
Proof. by destruct c as [tag [| | | |]| |]. Qed.

Lemma traverse_not_invalid {A B} (f : A -> result B) l :
  (forall x, f x <> Err InvalidDataError) -> traverse f l <> Err InvalidDataError.
Proof.
  intros Hf. induction l as [|x l IH]; cbn; [done|].
  specialize (Hf x). destruct (f x); cbn; [|congruence].
  destruct (traverse f l); cbn; congruence.
Qed.

Lemma child_at_not_invalid children i : child_at children i <> Err InvalidDataError.
Proof. unfold child_at. by destruct (children !! i). Qed.

Lemma read_floats_not_invalid n children i :
  read_floats n children i <> Err InvalidDataError.
Proof.
  revert i. induction n as [|n IH]; intros i; cbn; [done|].
  pose proof (child_at_not_invalid children i) as Hc.
  destruct (child_at children i) as [c|]; cbn; [|congruence].
  pose proof (ParseF32_not_invalid c) as Hp.
  destruct (ParseF32 c); cbn; [|congruence].
  specialize (IH (S i)). destruct (read_floats n children (S i)); cbn; congruence.
Qed.

Lemma ReadSequenceForCurve_not_invalid N children i :
  ReadSequenceForCurve N children i <> Err InvalidDataError.
Proof.
  revert i. induction N as [|N IH]; intros i; cbn -[read_floats]; [done|].
  pose proof (child_at_not_invalid children i) as Hc.
  destruct (child_at children i) as [c|]; cbn -[read_floats]; [|congruence].
  pose proof (ParseInt_not_invalid to_u32 c) as Hp.
  destruct (ParseInt to_u32 c); cbn -[read_floats]; [|congruence].
  pose proof (child_at_not_invalid children (i + 1)) as Hc'.
  destruct (child_at children (i + 1)) as [c'|]; cbn -[read_floats]; [|congruence].
  pose proof (ParseInt_not_invalid to_u32 c') as Hp'.
  destruct (ParseInt to_u32 c'); cbn -[read_floats]; [|congruence].
  pose proof (read_floats_not_invalid 30 children (i + 2)) as Hf.
  destruct (read_floats 30 children (i + 2)); cbn -[read_floats]; [|congruence].
  specialize (IH (i + 32)%nat).
  destruct (ReadSequenceForCurve N children (i + 32)); cbn; congruence.
Qed.

Lemma ReadSequenceForCurve_length N children i v :
  ReadSequenceForCurve N children i = Ok v -> length v = N.
Proof.
  revert i v. induction N as [|N IH]; intros i v; cbn -[read_floats].
  { by intros [= <-]. }
  destruct (child_at children i) as [c|]; cbn -[read_floats]; [|done].
  destruct (ParseInt to_u32 c); cbn -[read_floats]; [|done].
  destruct (child_at children (i + 1)) as [c'|]; cbn -[read_floats]; [|done].
  destruct (ParseInt to_u32 c'); cbn -[read_floats]; [|done].
  destruct (read_floats 30 children (i + 2)); cbn -[read_floats]; [|done].
  destruct (ReadSequenceForCurve N children (i + 32)) as [rest|] eqn:E; cbn; [|done].
  intros [= <-]. cbn. f_equal. by eapply IH.
Qed.

Lemma drop_cons_inv {A} (l : list A) i x tl :
  drop i l = x :: tl -> l !! i = Some x /\ drop (S i) l = tl.
Proof.
  intros E. split.
  - pose proof (lookup_drop l i 0) as Hl. by rewrite Nat.add_0_r, E in Hl.
  - replace (S i) with (i + 1)%nat by lia. by rewrite <- drop_drop, E.
Qed.

(** Reading back scalars of the expected kinds, from position [i] on. *)
Lemma read_floats_nodes children i (fs : list f64) rest :
  drop i children = (((fun d => NScalar "" (SFloat d)) <$> fs) ++ rest)%list ->
  read_floats (length fs) children i = Ok (f64_to_f32 <$> fs).
Proof.
  revert i. induction fs as [|d fs IH]; intros i E; cbn; [done|].
  cbn in E. apply drop_cons_inv in E as [E1 E2].
  unfold child_at. rewrite E1. cbn. by rewrite (IH _ E2).
Qed.

Lemma ReadSequenceForCurve_nodes children i (raw : list CurveScalars) rest :
  Forall (fun c => length (scalar_floats c) = 30%nat) raw ->
  drop i children = ((raw ≫= curve_nodes) ++ rest)%list ->
  ReadSequenceForCurve (length raw) children i = Ok (curve_of_scalars <$> raw).
Proof.
  intros Hraw. revert i.
  induction Hraw as [|[a b fs] raw Hfs _ IH]; intros i E; [done|].
  cbn in Hfs. cbn in E. rewrite <- app_assoc in E.
  apply drop_cons_inv in E as [Ea E]. apply drop_cons_inv in E as [Eb E].
  cbn -[read_floats]. unfold child_at.
  rewrite Ea, Nat.add_1_r, Eb. cbn -[read_floats].
  replace (i + 2)%nat with (S (S i)) by lia.
  rewrite <- Hfs, (read_floats_nodes _ _ _ _ E). cbn.
  rewrite (IH (i + S (S (length fs)))%nat); [done|].
  replace (i + S (S (length fs)))%nat with (S (S i) + length fs)%nat by lia.
  rewrite <- drop_drop, E.
  rewrite <- (length_fmap (fun d => NScalar "" (SFloat d)) fs).
  by rewrite drop_app_length.
Qed.

Lemma curve_nodes_length (raw : list CurveScalars) :
  Forall (fun c => length (scalar_floats c) = 30%nat) raw ->
  length (raw ≫= curve_nodes) = (length raw * 32)%nat.
Proof.
  induction 1 as [|c raw Hc _ IH]; [done|].
  cbn. rewrite length_app, IH. cbn. rewrite length_fmap, Hc. lia.
Qed.

Lemma fmap_Err {A B} (f : A -> B) (r : result A) e : f <$> r = Err e <-> r = Err e.
Proof. destruct r; cbn; split; congruence. Qed.

Lemma fmap_Ok {A B} (f : A -> B) (r : result A) y :
  f <$> r = Ok y <-> exists x, r = Ok x /\ y = f x.
Proof.
  destruct r; cbn; split.
  - intros [= <-]. eauto.
  - by intros (x & [= <-] & ->).
  - done.
  - by intros (x & ? & _).
Qed.

Lemma ParseF32_float c : is_float_node c = true -> exists x, ParseF32 c = Ok x.
Proof. destruct c as [tag [| | |d|]| |]; try done. cbn. eauto. Qed.

Lemma ParseInt_int conv c : is_int_node c = true -> exists x, ParseInt conv c = Ok x.
Proof. destruct c as [tag [| |v| |]| |]; try done. cbn. eauto. Qed.

Lemma traverse_Ok {A B} (f : A -> result B) l :
  Forall (fun x => exists y, f x = Ok y) l -> exists ys, traverse f l = Ok ys.
Proof.
  induction 1 as [|x l [y Hy] _ [ys IH]]; cbn; [eauto|].
  rewrite Hy, IH. cbn. eauto.
Qed.

Lemma read_floats_Ok n children i :
  (forall j, (j < n)%nat ->
     exists c, children !! (i + j)%nat = Some c /\ is_float_node c = true) ->
  exists fs, read_floats n children i = Ok fs.
Proof.
  revert i. induction n as [|n IH]; intros i Hk; cbn; [eauto|].
  destruct (Hk 0%nat) as (c & Hc & Hf); [lia|].
  rewrite Nat.add_0_r in Hc. unfold child_at. rewrite Hc. cbn.
  destruct (ParseF32_float _ Hf) as [x ->]. cbn.
  destruct (IH (S i)) as [fs ->]; [|cbn; eauto].
  intros j Hj. destruct (Hk (S j)) as (c' & Hc' & Hf'); [lia|].
  exists c'. split; [|done]. by rewrite <- Hc', Nat.add_succ_comm.
Qed.

Lemma ReadSequenceForCurve_Ok N children i :
  (forall j, (j < 32 * N)%nat ->
     exists c, children !! (i + j)%nat = Some c /\
       if (j mod 32 <? 2)%nat then is_int_node c = true else is_float_node c = true) ->
  exists v, ReadSequenceForCurve N children i = Ok v.
Proof.
  revert i. induction N as [|N IH]; intros i Hk; cbn -[read_floats]; [eauto|].
  destruct (Hk 0%nat) as (ca & Hca & Ha); [lia|].
  destruct (Hk 1%nat) as (cb & Hcb & Hb); [lia|].
  rewrite Nat.add_0_r in Hca. cbn in Ha, Hb.
  unfold child_at. rewrite Hca, Hcb. cbn -[read_floats].
  destruct (ParseInt_int to_u32 _ Ha) as [a ->].
  destruct (ParseInt_int to_u32 _ Hb) as [b ->]. cbn -[read_floats].
  destruct (read_floats_Ok 30 children (i + 2)) as [fs ->].
  { intros j Hj. destruct (Hk (2 + j)%nat) as (c & Hc & Hf); [lia|].
    exists c. rewrite Nat.add_assoc in Hc. split; [done|].
    rewrite Nat.mod_small in Hf by lia.
    destruct (Nat.ltb_spec (2 + j) 2); [lia|done]. }
  cbn -[read_floats].
  destruct (IH (i + 32)%nat) as [v ->]; [|cbn; eauto].
  intros j Hj. destruct (Hk (32 + j)%nat) as (c & Hc & Hf); [lia|].
  exists c. rewrite Nat.add_assoc in Hc. split; [done|].
  replace (32 + j)%nat with (j + 1 * 32)%nat in Hf by lia.
  by rewrite Nat.Div0.mod_add in Hf.
Qed.

End ReaderFacts.

(** ** Claims about reading sequences and scalars *)

Section ReaderClaims.

Context `{FloatModel}.

(** Takes the [ParseF32] calls of the goal apart; none of them raises
    [InvalidDataError]. *)
Ltac parse_cases :=
  repeat match goal with
  | |- context [ParseF32 ?c] =>
      let Hn := fresh "Hn" in
      pose proof (ParseF32_not_invalid c) as Hn;
      destruct (ParseF32 c); cbn in *; try congruence
  end.

Ltac float_children Hk :=
  repeat match goal with
  | |- context [ParseF32 ?c] =>
      let x := fresh "x" in
      let Hx := fresh "Hx" in
      destruct (ParseF32_float c) as [x Hx];
      [ first [ apply (Hk 0%nat); reflexivity | apply (Hk 1%nat); reflexivity
              | apply (Hk 2%nat); reflexivity | apply (Hk 3%nat); reflexivity ]
      | rewrite Hx; cbn ]
  end.

Lemma read_Vector2f_cases children :
  (read_Vector2f children = Err InvalidDataError <-> length children <> 2%nat) /\
  (length children = 2%nat -> floats_at children -> exists v, read_Vector2f children = Ok v).
Proof.
  destruct children as [|c1 [|c2 [|c3 l]]]; cbn; (split; [split|]); try done; try lia.
  - intros E. exfalso. revert E. parse_cases.
  - intros _ Hk. float_children Hk. eauto.
Qed.

Lemma read_Vector3f_cases children :
  (read_Vector3f children = Err InvalidDataError <-> length children <> 3%nat) /\
  (length children = 3%nat -> floats_at children -> exists v, read_Vector3f children = Ok v).
Proof.
  destruct children as [|c1 [|c2 [|c3 [|c4 l]]]]; cbn; (split; [split|]); try done; try lia.
  - intros E. exfalso. revert E. parse_cases.
  - intros _ Hk. float_children Hk. eauto.
Qed.

Lemma read_Vector4f_cases children :
  (read_Vector4f children = Err InvalidDataError <-> length children <> 4%nat) /\
  (length children = 4%nat -> floats_at children -> exists v, read_Vector4f children = Ok v).
Proof.
  destruct children as [|c1 [|c2 [|c3 [|c4 [|c5 l]]]]]; cbn; (split; [split|]);
    try done; try lia.
  - intros E. exfalso. revert E. parse_cases.
  - intros _ Hk. float_children Hk. eauto.
Qed.

Lemma read_Color4f_cases children :
  (read_Color4f children = Err InvalidDataError <-> length children <> 4%nat) /\
  (length children = 4%nat -> floats_at children -> exists v, read_Color4f children = Ok v).
Proof.
  destruct children as [|c1 [|c2 [|c3 [|c4 [|c5 l]]]]]; cbn; (split; [split|]);
    try done; try lia.
  - intros E. exfalso. revert E. parse_cases.
  - intros _ Hk. float_children Hk. eauto.
Qed.

Lemma read_Quatf_cases children :
  (read_Quatf children = Err InvalidDataError <-> length children <> 4%nat) /\
  (length children = 4%nat -> floats_at children -> exists v, read_Quatf children = Ok v).
Proof.
  destruct children as [|c1 [|c2 [|c3 [|c4 [|c5 l]]]]]; cbn; (split; [split|]);
    try done; try lia.
  - intros E. exfalso. revert E. parse_cases.
  - intros _ Hk. float_children Hk. eauto.
Qed.

Lemma read_curve_unfold children :
  read_Parameter (NSeq "!curve" children) =
  Some <$>
    (if bool_decide (length children = 32%nat)
     then PCurve1 <$> ReadSequenceForCurve 1 children 0
     else if bool_decide (length children = 64%nat)
     then PCurve2 <$> ReadSequenceForCurve 2 children 0
     else if bool_decide (length children = 96%nat)
     then PCurve3 <$> ReadSequenceForCurve 3 children 0
     else if bool_decide (length children = 128%nat)
     then PCurve4 <$> ReadSequenceForCurve 4 children 0
     else Err InvalidDataError).
Proof. reflexivity. Qed.

Lemma curve_lengths_elem n :
  n ∈ curve_lengths <-> n = 32%nat \/ n = 64%nat \/ n = 96%nat \/ n = 128%nat.
Proof.
  unfold curve_lengths. rewrite !elem_of_cons, elem_of_nil. tauto.
Qed.

Lemma read_curve_InvalidData children :
  read_Parameter (NSeq "!curve" children) = Err InvalidDataError <->
  length children ∉ curve_lengths.
Proof.
  rewrite read_curve_unfold, fmap_Err, curve_lengths_elem.
  repeat case_bool_decide; rewrite ?fmap_Err;
    (split; [intros E|intros E; try lia; try done]).
  all: try (by apply ReadSequenceForCurve_not_invalid in E).
  lia.
Qed.

Lemma read_curve_Ok children r :
  read_Parameter (NSeq "!curve" children) = Ok r ->
  exists K v, r = PCurve K v /\ (1 <= K <= 4)%nat /\ length v = K /\
              length children = (32 * K)%nat.
Proof.
  rewrite read_curve_unfold.
  intros (p & E & ->)%fmap_Ok. revert E.
  repeat case_bool_decide; try done.
  all: intros (v & E & ->)%fmap_Ok; apply ReadSequenceForCurve_length in E.
  all: exists (length v), v; rewrite E; repeat split; try done; lia.
Qed.

(** C2, as stated, fails on a sequence of 32 K elements that are not of the
    kinds the slots of a curve expect: 32 strings, or 32 integers, are not
    read as [Curve[1]]; [std::get] raises [std::bad_variant_access]. *)
Lemma read_curve_counterexample :
  let text := @NScalar integral_floats "" (@SString integral_floats "x") in
  let zero := @NScalar integral_floats "" (@SInt integral_floats 0) in
  length (replicate 32 text) = 32%nat /\
  read_Parameter (NSeq "!curve" (replicate 32 text)) = Err bad_variant_access /\
  read_Parameter (NSeq "!curve" (replicate 32 zero)) = Err bad_variant_access.
Proof. repeat split; reflexivity. Qed.

(** C2, amended.  A sequence tagged [!curve] is refused with
    [InvalidDataError] exactly when its number of elements is none of 32, 64,
    96, 128; whenever it is read, the result is [Curve[K]] with 32 K the
    number of elements; and 32 K elements that are, curve by curve, two
    integers followed by 30 floats are read as [Curve[K]], for K from 1 to
    4. *)
Theorem read_curve_by_length :
  (forall children,
     read_Parameter (NSeq "!curve" children) = Err InvalidDataError <->
     length children ∉ curve_lengths) /\
  (forall children r,
     read_Parameter (NSeq "!curve" children) = Ok r ->
     exists K v, r = PCurve K v /\ (1 <= K <= 4)%nat /\ length v = K /\
                 length children = (32 * K)%nat) /\
  (forall raw : list CurveScalars,
     (1 <= length raw <= 4)%nat ->
     Forall (fun c => length (scalar_floats c) = 30%nat) raw ->
     length (raw ≫= curve_nodes) = (32 * length raw)%nat /\
     read_Parameter (NSeq "!curve" (raw ≫= curve_nodes)) =
       Ok (PCurve (length raw) (curve_of_scalars <$> raw))).
Proof.
  split; [exact read_curve_InvalidData|]. split; [exact read_curve_Ok|].
  intros raw HK Hraw.
  pose proof (curve_nodes_length raw Hraw) as Hlen.
  split; [lia|].
  pose proof (ReadSequenceForCurve_nodes (raw ≫= curve_nodes) 0 raw [] Hraw) as Hr.
  rewrite app_nil_r in Hr. specialize (Hr eq_refl).
  rewrite read_curve_unfold, Hlen.
  assert (HK' : length raw = 1%nat \/ length raw = 2%nat \/
                length raw = 3%nat \/ length raw = 4%nat) by lia.
  destruct HK' as [E|[E|[E|E]]]; rewrite E in Hr |- *; cbn -[ReadSequenceForCurve];
    by rewrite Hr.
Qed.

(** C6.  The parameter [U32(0xFFFFFFFF)] is written as the integer scalar
    4294967295 under the tag [!u]; the tag is recognized as that of an
    integer; an integer scalar under [!u] is read as [U32], never as [Int32];
    so a [U32] comes back from the text as the same [U32]. *)
Theorem U32_text_roundtrip :
  EmitParameter (PU32 0xFFFFFFFF) = NScalar "!u" (SInt 4294967295) /\
  RecognizeTag "!u" = Some TInt /\
  (forall value : Z,
     read_Parameter (NScalar "!u" (SInt value)) = Ok (Some (PU32 (to_u32 value)))) /\
  (forall v : Z,
     read_Parameter (EmitParameter (PU32 (to_u32 v))) = Ok (Some (PU32 (to_u32 v)))).
Proof.
  split; [reflexivity|]. split; [reflexivity|]. split; [reflexivity|].
  intros v. cbn. by rewrite to_u32_to_u64 by apply to_u32_range.
Qed.

Lemma invalid_fixed tag k n :
  tag ∈ sequence_tags -> fixed_size tag = Some k ->
  invalid_sequence tag n <-> n <> k.
Proof.
  intros Hin Hk. unfold invalid_sequence. split.
  - intros [Hout|[[-> _]|(k' & Hk' & Hn)]]; [done|done|congruence].
  - intros Hn. right. right. eauto.
Qed.

Lemma invalid_curve n : invalid_sequence "!curve" n <-> n ∉ curve_lengths.
Proof.
  unfold invalid_sequence. split.
  - intros [Hout|[[_ Hn]|(k & Hk & _)]]; [|done|done].
    exfalso. apply Hout. by repeat constructor.
  - intros Hn. right. left. done.
Qed.

Lemma invalid_buffer tag n :
  tag ∈ sequence_tags -> fixed_size tag = None -> tag <> "!curve" ->
  ~ invalid_sequence tag n.
Proof.
  intros Hin Hk Hc [Hout|[[-> _]|(k & Hk' & _)]]; [done|done|congruence].
Qed.

Lemma read_buffer_cases {T} (parse : Node -> result T) (make : list T -> Param)
    (kind : Node -> bool) children :
  (forall c, parse c <> Err InvalidDataError) ->
  (forall c, kind c = true -> exists x, parse c = Ok x) ->
  let r : result (option Param) := Some <$> (make <$> ReadSequenceForBuffer parse children) in
  r <> Err InvalidDataError /\
  (forall p, r = Ok p -> exists v, p = Some (make v)) /\
  ((forall i c, children !! i = Some c -> kind c = true) -> exists v, r = Ok (Some (make v))).
Proof.
  intros Hparse Hkind r. subst r. unfold ReadSequenceForBuffer. split; [|split].
  - rewrite !fmap_Err. by apply traverse_not_invalid.
  - intros p (q & (v & _ & ->)%fmap_Ok & ->)%fmap_Ok. eauto.
  - intros Hk. destruct (traverse_Ok parse children) as [v ->]; [|cbn; eauto].
    apply Forall_lookup. intros i c Hc. eauto.
Qed.

(** C7, as stated, fails on a sequence under a listed tag other than
    [!curve]: [!vec2] with no element is refused with [InvalidDataError]. *)
Lemma read_sequence_counterexample :
  @read_Parameter integral_floats (NSeq "!vec2" []) = Err InvalidDataError /\
  "!vec2" ∈ sequence_tags /\
  ("!vec2" =? "!curve")%string = false.
Proof. split; [reflexivity|]. split; [by repeat constructor|reflexivity]. Qed.

(** C7, amended.  Reading a sequence node as a parameter raises
    [InvalidDataError] exactly when its tag is none of the ten listed tags
    (an untagged sequence included), or the tag is [!curve] and the number of
    children is none of 32, 64, 96, 128, or the tag is one of [!vec2],
    [!vec3], [!vec4], [!color], [!quat] and the number of children is not
    the number of fields (2, 3, 4, 4, 4).  A sequence that is read gives the
    variant of its tag, and every sequence that is not refused and whose
    children are scalars of the kind their position expects is read. *)
Theorem read_sequence_InvalidData (tag : string) (children : list Node) :
  (read_Parameter (NSeq tag children) = Err InvalidDataError <->
   invalid_sequence tag (length children)) /\
  (forall r, read_Parameter (NSeq tag children) = Ok r ->
     exists p, r = Some p /\ sequence_tag_of p = Some tag) /\
  (~ invalid_sequence tag (length children) -> well_kinded tag children ->
     exists p, read_Parameter (NSeq tag children) = Ok (Some p)).
Proof.
  destruct (decide (tag ∈ sequence_tags)) as [Hin|Hout].
  - assert (Hin' := Hin). unfold sequence_tags in Hin'.
    rewrite !elem_of_cons, elem_of_nil in Hin'.
    destruct Hin' as [->|[->|[->|[->|[->|[->|[->|[->|[->|[->|[]]]]]]]]]]].
    + destruct (read_Vector2f_cases children) as [H1 H2].
      change (read_Parameter (NSeq "!vec2" children))
        with (Some <$> (PVec2 <$> read_Vector2f children)).
      rewrite !fmap_Err, (invalid_fixed _ 2%nat) by done. split; [done|]. split.
      * intros r (q & (v & _ & ->)%fmap_Ok & ->)%fmap_Ok. eauto.
      * intros Hn Hk. destruct H2 as [v ->]; [lia|exact Hk|cbn; eauto].
    + destruct (read_Vector3f_cases children) as [H1 H2].
      change (read_Parameter (NSeq "!vec3" children))
        with (Some <$> (PVec3 <$> read_Vector3f children)).
      rewrite !fmap_Err, (invalid_fixed _ 3%nat) by done. split; [done|]. split.
      * intros r (q & (v & _ & ->)%fmap_Ok & ->)%fmap_Ok. eauto.
      * intros Hn Hk. destruct H2 as [v ->]; [lia|exact Hk|cbn; eauto].
    + destruct (read_Vector4f_cases children) as [H1 H2].
      change (read_Parameter (NSeq "!vec4" children))
        with (Some <$> (PVec4 <$> read_Vector4f children)).
      rewrite !fmap_Err, (invalid_fixed _ 4%nat) by done. split; [done|]. split.
      * intros r (q & (v & _ & ->)%fmap_Ok & ->)%fmap_Ok. eauto.
      * intros Hn Hk. destruct H2 as [v ->]; [lia|exact Hk|cbn; eauto].
    + destruct (read_Color4f_cases children) as [H1 H2].
      change (read_Parameter (NSeq "!color" children))
        with (Some <$> (PColor <$> read_Color4f children)).
      rewrite !fmap_Err, (invalid_fixed _ 4%nat) by done. split; [done|]. split.
      * intros r (q & (v & _ & ->)%fmap_Ok & ->)%fmap_Ok. eauto.
      * intros Hn Hk. destruct H2 as [v ->]; [lia|exact Hk|cbn; eauto].
    + destruct (read_Quatf_cases children) as [H1 H2].
      change (read_Parameter (NSeq "!quat" children))
        with (Some <$> (PQuat <$> read_Quatf children)).
      rewrite !fmap_Err, (invalid_fixed _ 4%nat) by done. split; [done|]. split.
      * intros r (q & (v & _ & ->)%fmap_Ok & ->)%fmap_Ok. eauto.
      * intros Hn Hk. destruct H2 as [v ->]; [lia|exact Hk|cbn; eauto].
    + rewrite read_curve_InvalidData, invalid_curve. split; [done|]. split.
      * intros r (K & v & -> & HK & _)%read_curve_Ok.
        destruct K as [|[|[|[|[|K]]]]]; try lia; cbn; eauto.
      * intros Hn Hk.
        assert (Hlen : length children ∈ curve_lengths).
        { destruct (decide (length children ∈ curve_lengths)); [done|]. by destruct Hn. }
        apply curve_lengths_elem in Hlen.
        assert (Hread : forall N, length children = (32 * N)%nat ->
                  exists v, ReadSequenceForCurve N children 0 = Ok v).
        { intros N HN. apply ReadSequenceForCurve_Ok. intros j Hj.
          destruct (lookup_lt_is_Some_2 children j) as [c Hc]; [lia|].
          exists c. split; [done|]. exact (Hk j c Hc). }
        rewrite read_curve_unfold.
        destruct Hlen as [E|[E|[E|E]]]; rewrite E; cbn -[ReadSequenceForCurve].
        -- destruct (Hread 1%nat) as [v ->]; [lia|cbn; eauto].
        -- destruct (Hread 2%nat) as [v ->]; [lia|cbn; eauto].
        -- destruct (Hread 3%nat) as [v ->]; [lia|cbn; eauto].
        -- destruct (Hread 4%nat) as [v ->]; [lia|cbn; eauto].
    + destruct (read_buffer_cases (ParseInt to_s32) PBufferInt is_int_node children)
        as (H1 & H2 & H3);
        [apply ParseInt_not_invalid|apply ParseInt_int|].
      pose proof (invalid_buffer "!buffer_int" (length children) Hin eq_refl) as Hv.
      split; [split; [done|intros; exfalso; by apply Hv]|]. split.
      * intros r [v ->]%H2. eauto.
      * intros _ Hk. destruct (H3 Hk) as [v Hr]. eauto.
    + destruct (read_buffer_cases ParseF32 PBufferF32 is_float_node children)
        as (H1 & H2 & H3);
        [apply ParseF32_not_invalid|apply ParseF32_float|].
      pose proof (invalid_buffer "!buffer_f32" (length children) Hin eq_refl) as Hv.
      split; [split; [done|intros; exfalso; by apply Hv]|]. split.
      * intros r [v ->]%H2. eauto.
      * intros _ Hk. destruct (H3 Hk) as [v Hr]. eauto.
    + destruct (read_buffer_cases (ParseInt to_u32) PBufferU32 is_int_node children)
        as (H1 & H2 & H3);
        [apply ParseInt_not_invalid|apply ParseInt_int|].
      pose proof (invalid_buffer "!buffer_u32" (length children) Hin eq_refl) as Hv.
      split; [split; [done|intros; exfalso; by apply Hv]|]. split.
      * intros r [v ->]%H2. eauto.
      * intros _ Hk. destruct (H3 Hk) as [v Hr]. eauto.
    + destruct (read_buffer_cases (ParseInt to_u8) PBufferBinary is_int_node children)
        as (H1 & H2 & H3);
        [apply ParseInt_not_invalid|apply ParseInt_int|].
      pose proof (invalid_buffer "!buffer_binary" (length children) Hin eq_refl) as Hv.
      split; [split; [done|intros; exfalso; by apply Hv]|]. split.
      * intros r [v ->]%H2. eauto.
      * intros _ Hk. destruct (H3 Hk) as [v Hr]. eauto.
  - assert (E : read_Parameter (NSeq tag children) = Err InvalidDataError).
    { unfold read_Parameter.
      repeat match goal with
      | |- context [String.eqb tag ?t] =>
          destruct (String.eqb_spec tag t) as [->|_];
          [exfalso; apply Hout; by repeat constructor|]
      end.
      reflexivity. }
    rewrite E. split; [split; [by left|done]|]. split; [done|].
    intros Hn. exfalso. apply Hn. by left.
Qed.

End ReaderClaims.

(** ** Facts about the writer *)

Section WriterFacts.

Context `{FloatModel}.

Lemma ParameterList_ind' (P : ParameterList -> Prop) :
  (forall objs lsts, Forall (fun kv => P kv.2) lsts -> P (mkParameterList objs lsts)) ->
  forall l, P l.
Proof.
  intros Hstep. fix IH 1. intros [objs lsts]. apply Hstep.
  induction lsts as [|[k sub] lsts IHl]; constructor; [apply IH|apply IHl].
Qed.

Lemma EmitName_lookup name index parent st :
  EmitName name index parent st =
  let '(found, st') := lookup_name name index parent st in
  (match found with
   | Some s => SString s
   | None => SInt name
   end, st').
Proof.
  unfold EmitName, lookup_name.
  destruct (GetName name index parent (m_extra_name_table st)) as [[s|] extra]; [done|].
  by destruct (GetName name index parent (default_name_table st)) as [[s|] table].
Qed.

Lemma spec_emit_entries_from {V} (emit_value : V -> Z -> EmitterState -> Node * EmitterState)
    parent (map : list (Z * V)) (k : nat) acc st :
  foldl (fun acc '(position, (name, value)) =>
           let '(entries, st) := acc in
           let '(key, st) := spec_emit_key name position parent st in
           let '(node, st) := emit_value value name st in
           (entries ++ [(key, node)], st))
    (acc, st) (zip (seq k (length map)) map) =
  let '(entries, st') := emit_entries emit_value parent map (Z.of_nat k) st in
  (acc ++ entries, st').
Proof.
  revert k acc st. induction map as [|[name value] map IH]; intros k acc st.
  { cbn. by rewrite app_nil_r. }
  cbn [length seq zip zip_with foldl emit_entries].
  unfold spec_emit_key at 2. rewrite EmitName_lookup.
  destruct (lookup_name name (Z.of_nat k) parent st) as [found st1].
  destruct (emit_value value name st1) as [node st2].
  rewrite IH. replace (Z.of_nat (S k)) with (Z.of_nat k + 1) by lia.
  destruct (emit_entries emit_value parent map (Z.of_nat k + 1) st2) as [entries st3].
  by rewrite <- app_assoc.
Qed.

(** The loop with its counter is the iteration by position. *)
Lemma emit_entries_by_position {V}
    (emit_value : V -> Z -> EmitterState -> Node * EmitterState) parent map st :
  emit_entries emit_value parent map 0 st = spec_emit_entries emit_value parent map st.
Proof.
  unfold spec_emit_entries. rewrite (spec_emit_entries_from emit_value parent map 0 [] st).
  change (Z.of_nat 0) with 0.
  by destruct (emit_entries emit_value parent map 0 st).
Qed.

Lemma extends_refl t : extends t t.
Proof. by split. Qed.

Lemma extends_trans t1 t2 t3 : extends t1 t2 -> extends t2 t3 -> extends t1 t3.
Proof. intros [A1 B1] [A2 B2]. split; eauto. Qed.

Lemma AddNameReference_extends s t : extends t (AddNameReference s t).
Proof.
  split; [|apply AddNameReference_consistent].
  intros h x. apply emplace_keeps.
Qed.

Lemma foldl_extends {A} (f : NameTable -> A -> NameTable) l t :
  Forall (fun x => forall t, extends t (f t x)) l -> extends t (foldl f t l).
Proof.
  intros Hl. revert t. induction Hl as [|x l Hx _ IH]; intros t; cbn.
  - apply extends_refl.
  - eapply extends_trans; [apply Hx|apply IH].
Qed.

Lemma foldl_registers {A} (f : NameTable -> A -> NameTable) l t x h :
  Forall (fun x => forall t, extends t (f t x)) l ->
  x ∈ l -> (forall t, is_Some (names (f t x) !! h)) ->
  is_Some (names (foldl f t l) !! h).
Proof.
  intros Hl Hx Hf. revert t.
  induction Hl as [|y l Hy Hl IH]; intros t; [by apply elem_of_nil in Hx|].
  cbn. apply elem_of_cons in Hx as [->|Hx]; [|by apply IH].
  destruct (Hf t) as [s Hs].
  destruct (foldl_extends f l (f t y) Hl) as [Hkeep _]. eauto.
Qed.

Lemma BuildExtraNameTable_object_step :
  forall (x : Z * Param) t,
    extends t (let '(_, param) := x in
               match string_value param with
               | Some s => AddNameReference s t
               | None => t
               end).
Proof.
  intros [k p] t. destruct (string_value p); [apply AddNameReference_extends|apply extends_refl].
Qed.

Lemma BuildExtraNameTable_object_extends obj t :
  extends t (BuildExtraNameTable_object obj t).
Proof.
  apply foldl_extends, Forall_forall. intros x _. apply BuildExtraNameTable_object_step.
Qed.

Lemma BuildExtraNameTable_extends list t : extends t (BuildExtraNameTable list t).
Proof.
  revert t. induction list as [objs lsts IH] using ParameterList_ind'. intros t. cbn.
  eapply extends_trans; cycle 1.
  - apply foldl_extends. eapply Forall_impl; [exact IH|].
    intros [k sub] Hsub t'. apply Hsub.
  - apply foldl_extends, Forall_forall. intros [k o] _ t'.
    apply BuildExtraNameTable_object_extends.
Qed.

Lemma BuildExtraNameTable_object_registers obj t kp p s :
  (kp, p) ∈ params obj -> string_value p = Some s ->
  is_Some (names (BuildExtraNameTable_object obj t) !! crc32 s).
Proof.
  intros Hp Hs. unfold BuildExtraNameTable_object.
  eapply foldl_registers; [|exact Hp|].
  - apply Forall_forall. intros x _. apply BuildExtraNameTable_object_step.
  - intros t'. cbv beta iota. rewrite Hs. apply emplace_is_Some.
Qed.

Lemma BuildExtraNameTable_registers list s t :
  StringValueIn s list -> is_Some (names (BuildExtraNameTable list t) !! crc32 s).
Proof.
  intros Hs. revert t.
  induction Hs as [objs lsts k o kp p Ho Hp Hv|objs lsts k sub Hsub _ IH]; intros t; cbn.
  - match goal with |- is_Some (names (foldl ?f ?t0 lsts) !! _) =>
      destruct (foldl_extends f lsts t0) as [Hkeep _]
    end.
    { apply Forall_forall. intros [k' sub] _ t'. apply BuildExtraNameTable_extends. }
    match goal with |- is_Some (names (foldl _ (foldl ?f t objs) _) !! _) =>
      destruct (foldl_registers f objs t (k, o) (crc32 s)) as [x Hx]
    end.
    + apply Forall_forall. intros [k' o'] _ t'. apply BuildExtraNameTable_object_extends.
    + done.
    + intros t'. by eapply BuildExtraNameTable_object_registers.
    + eauto.
  - eapply foldl_registers; [|exact Hsub|].
    + apply Forall_forall. intros [k' sub'] _ t'. apply BuildExtraNameTable_extends.
    + intros t'. apply IH.
Qed.

End WriterFacts.

(** ** Claims about the writer *)

Section WriterClaims.

Context `{FloatModel}.

(** C8.  [Emit] first builds the extra name table from the whole tree, in
    which every string-typed parameter value has then been registered under
    its CRC32, and only then writes the document.  Every key of every map is
    written by a lookup with the hash, the 0-based position of the entry in
    the iteration of its map and the name hash of the parent (the key of the
    object for its parameters, the key of the list, or [ParamRootKey] at the
    root, for its objects and lists): the recovered string when the lookup
    succeeds, the integer hash when it fails. *)
Theorem Emit_names (pio : ParameterIO) (default_table : NameTable) :
  let extra := BuildExtraNameTable (io_list pio) empty_table in
  Emit pio default_table = EmitParameterIO pio (mkEmitterState extra default_table) /\
  (forall s, StringValueIn s (io_list pio) ->
     exists s', names extra !! crc32 s = Some s' /\ crc32 s' = crc32 s) /\
  (forall st,
     EmitParameterIO pio st =
     let '(root, st') := EmitParameterList (io_list pio) ParamRootKey st in
     (NMap "!io" [(SString "version", EmitInt (version pio) "");
                  (SString "type", EmitString (type pio) "");
                  (SString "param_root", root)], st')) /\
  (forall objs lsts parent st,
     EmitParameterList (mkParameterList objs lsts) parent st =
     let '(o, st1) :=
       spec_emit_entries (fun object name st => EmitParameterObject object name st)
         parent objs st in
     let '(l, st2) :=
       spec_emit_entries (fun list name st => EmitParameterList list name st)
         parent lsts st1 in
     (NMap "!list" [(SString "objects", NMap "" o); (SString "lists", NMap "" l)], st2)) /\
  (forall pobject parent st,
     EmitParameterObject pobject parent st =
     let '(entries, st') :=
       spec_emit_entries (fun param _ st => (EmitParameter param, st))
         parent (params pobject) st in
     (NMap "!obj" entries, st')).
Proof.
  intros extra. split; [reflexivity|]. split; [|split; [reflexivity|split]].
  - intros s Hs.
    destruct (BuildExtraNameTable_registers _ s empty_table Hs) as [s' Hs'].
    exists s'. split; [done|].
    destruct (BuildExtraNameTable_extends (io_list pio) empty_table) as [_ Hc].
    destruct Hc as [Hc _]; [by split|]. by apply Hc.
  - intros objs lsts parent st. cbn [EmitParameterList].
    rewrite emit_entries_by_position.
    destruct (spec_emit_entries _ parent objs st) as [o st1].
    by rewrite emit_entries_by_position.
  - intros pobject parent st. unfold EmitParameterObject.
    by rewrite emit_entries_by_position.
Qed.

(** C9.  [EmitName] asks the extra name table of the document first: when
    it resolves the hash, its name is the key that is emitted and the default
    table is not consulted, whatever name that table holds for the hash. *)
Theorem EmitName_extra_first (name index parent : Z) (st : EmitterState)
    (s : string) (extra : NameTable) :
  GetName name index parent (m_extra_name_table st) = (Some s, extra) ->
  EmitName name index parent st =
    (SString s, mkEmitterState extra (default_name_table st)).
Proof. intros E. unfold EmitName. by rewrite E. Qed.

End WriterClaims.

(** The name "EnemyList" of the example is the value of a parameter of the
    document, and so is known to the extra name table. *)
Lemma Emit_names_witness :
  exists s', names (BuildExtraNameTable (io_list example_io) empty_table)
               !! crc32 "EnemyList" = Some s' /\ crc32 s' = crc32 "EnemyList".
Proof.
  apply (Emit_names example_io empty_table).
  eapply (string_in_object _ _ _ (crc32 "TestObj"));
    [constructor|cbn; apply list_elem_of_further, list_elem_of_here|reflexivity].
Defined.

(** The two tables hold different names for the hash 0x7900d840: the name
    of the extra table is emitted. *)
Lemma EmitName_extra_first_witness :
  let st := mkEmitterState (AddNameReference "Ehzyoyfa_0" empty_table)
                           (AddNameReference "Ehzyoyfa1" empty_table) in
  names (m_extra_name_table st) !! 0x7900d840 = Some "Ehzyoyfa_0" /\
  names (default_name_table st) !! 0x7900d840 = Some "Ehzyoyfa1" /\
  @EmitName integral_floats 0x7900d840 0 ParamRootKey st = (SString "Ehzyoyfa_0", st).
Proof.
  intros st. split; [vm_compute; reflexivity|]. split; [vm_compute; reflexivity|].
  apply (EmitName_extra_first 0x7900d840 0 ParamRootKey st "Ehzyoyfa_0").
  vm_compute. reflexivity.
Defined.

(** ** The round trip through the text *)

Section Roundtrip.

Context `{FloatModel}.

















(** A float parameter is read back as the conversion of the [f64] its text
    holds, whether or not that is the float written. *)
Lemma read_EmitParameter_F32 (v : f32) :
  read_Parameter (EmitParameter (PF32 v)) = Ok (Some (PF32 (f64_to_f32 (float_text_value v)))).
Proof. reflexivity. Qed.


End Roundtrip.

(** Well-formedness of a tree given in full: the goal is taken apart along
    the tree, and the ranges and the absence of duplicates are computed. *)
Ltac not_in := repeat (apply not_elem_of_cons; split; [discriminate|]); apply not_elem_of_nil.




(** In [integral_floats] every integer below 2^24 in magnitude is a
    [float] and survives the text. *)
Lemma round_f32_exact (v : Z) : Z.abs v < 2 ^ 24 -> @float_exact integral_floats v.
Proof.
  intros Hv. unfold float_exact. cbn [f64_to_f32 float_text_value integral_floats].
  unfold round_f32.
  assert (Hlog : Z.log2 (Z.abs v) + 1 - 24 <= 0).
  { destruct (decide (Z.abs v = 0)) as [->|Hne]; [done|].
    assert (Z.log2 (Z.abs v) < 24) by (apply Z.log2_lt_pow2; lia). lia. }
  rewrite Z.max_l by done. change (2 ^ 0) with 1.
  rewrite Z.div_1_r, Z.mod_1_r. cbn [Z.mul Z.ltb Z.compare].
  rewrite Z.mul_1_r, Z.mul_comm. apply Z.abs_sgn.
Qed.

(** The conversion rounds: the integer 16777217, which has 25 significant
    bits and is no [float], is read as 16777216. *)
Example read_Parameter_rounds :
  @read_Parameter integral_floats (NScalar "" (@SFloat integral_floats 16777217)) =
    Ok (Some (@PF32 integral_floats 16777216)).
Proof. reflexivity. Qed.

(** Scenario 4 of the specification: 64 elements are read as [Curve[2]], 96
    as [Curve[3]], and 48 are refused. *)
Lemma read_curve_by_length_witness :
  let c := @mkCurveScalars integral_floats 0 1 (replicate 30 0) in
  let zero := @NScalar integral_floats "" (@SFloat integral_floats 0) in
  (length (replicate 2 c ≫= curve_nodes) = 64%nat /\
   read_Parameter (NSeq "!curve" (replicate 2 c ≫= curve_nodes)) =
     Ok (Some (PCurve2 (curve_of_scalars <$> replicate 2 c)))) /\
  (length (replicate 3 c ≫= curve_nodes) = 96%nat /\
   read_Parameter (NSeq "!curve" (replicate 3 c ≫= curve_nodes)) =
     Ok (Some (PCurve3 (curve_of_scalars <$> replicate 3 c)))) /\
  read_Parameter (NSeq "!curve" (replicate 48 zero)) = Err InvalidDataError.
Proof.
  intros c zero.
  destruct (@read_curve_by_length integral_floats) as (Hrefused & _ & Hread).
  split; [|split].
  - apply (Hread (replicate 2 c)); [cbn; lia|]. by repeat constructor.
  - apply (Hread (replicate 3 c)); [cbn; lia|]. by repeat constructor.
  - apply Hrefused. cbn [length replicate]. unfold curve_lengths. not_in.
Defined.

(** Three floats under [!vec3] are read as a [Vector3f]; two are refused. *)
Lemma read_sequence_InvalidData_witness :
  let one := @NScalar integral_floats "" (@SFloat integral_floats 1) in
  read_Parameter (NSeq "!vec3" [one; one]) = Err InvalidDataError /\
  exists p, read_Parameter (NSeq "!vec3" [one; one; one]) = Ok (Some p).
Proof.
  intros one. split.
  - apply (read_sequence_InvalidData "!vec3" [one; one]).
    right. right. exists 3%nat. split; [reflexivity|discriminate].
  - apply (read_sequence_InvalidData "!vec3" [one; one; one]).
    + intros [Hout|[[Hc _]|(k & Hk & Hn)]].
      * apply Hout. by repeat constructor.
      * discriminate Hc.
      * injection Hk as <-. by apply Hn.
    + intros [|[|[|i]]] x Hx; cbn in Hx; try done; by injection Hx as <-.
Defined.

(** ** Further properties: the name table *)

Section NameTableProperties.

Implicit Types (t : NameTable) (hash index parent : Z) (name line : string).

Lemma append_cons (c : ascii) (a b : string) : String c a +:+ b = String c (a +:+ b).
Proof. reflexivity. Qed.

Lemma append_nil_l (b : string) : "" +:+ b = b.
Proof. reflexivity. Qed.

Lemma list_ascii_of_string_app (a b : string) :
  list_ascii_of_string (a +:+ b) = list_ascii_of_string a ++ list_ascii_of_string b.
Proof.
  induction a as [|c a IH]; [done|]. rewrite append_cons. cbn. by rewrite IH.
Qed.

Lemma append_nil_r (a : string) : a +:+ "" = a.
Proof. induction a as [|c a IH]; [done|]. by rewrite append_cons, IH. Qed.

Lemma append_assoc (a b c : string) : (a +:+ b) +:+ c = a +:+ (b +:+ c).
Proof. induction a as [|x a IH]; [done|]. by rewrite !append_cons, IH. Qed.

Lemma split_lines_are_lines data acc line :
  newline ∉ list_ascii_of_string acc ->
  line ∈ split_lines data acc -> is_line line.
Proof.
  revert acc. induction data as [|c data IH]; intros acc Hacc; cbn.
  - case_bool_decide; [by intros ?%elem_of_nil|].
    intros ->%list_elem_of_singleton. by split.
  - case_bool_decide as Hc.
    + intros [Hin|Hin]%elem_of_app.
      * revert Hin. case_bool_decide; [by intros ?%elem_of_nil|].
        intros ->%list_elem_of_singleton. by split.
      * apply (IH ""); [|done]. cbn. apply not_elem_of_nil.
    + apply IH. rewrite list_ascii_of_string_app. cbn.
      rewrite elem_of_app, list_elem_of_singleton. intros [?|?]; [done|].
      apply Hc. by subst.
Qed.

(** X1.  Every line [SplitStringByLine] hands to its callback is non-empty
    and holds no newline. *)
Theorem SplitStringByLine_lines (data line : string) :
  line ∈ SplitStringByLine data -> is_line line.
Proof. apply split_lines_are_lines. cbn. apply not_elem_of_nil. Qed.

Lemma SplitStringByLine_lines_witness :
  is_line "Bar%d".
Proof.
  apply (SplitStringByLine_lines ("Foo" +:+ String newline (String newline "Bar%d"))).
  vm_compute. apply list_elem_of_further, list_elem_of_here.
Defined.

Lemma split_lines_line line rest acc :
  newline ∉ list_ascii_of_string line ->
  split_lines (line +:+ String newline rest) acc =
  (if bool_decide (acc +:+ line = "") then [] else [acc +:+ line]) ++ split_lines rest "".
Proof.
  revert acc. induction line as [|c line IH]; intros acc Hline.
  - rewrite append_nil_l, append_nil_r. cbn [split_lines].
    rewrite bool_decide_eq_true_2 by done. done.
  - rewrite append_cons. cbn [split_lines]. cbn in Hline.
    rewrite not_elem_of_cons in Hline. destruct Hline as [Hc Hline].
    rewrite bool_decide_eq_false_2 by (intros ->; by apply Hc).
    rewrite IH by done. rewrite append_assoc, append_cons, append_nil_l. done.
Qed.

(** X2.  Splitting the text of a file gives back its lines: when every line
    is non-empty and without a newline, and each is ended by a newline,
    [SplitStringByLine] returns the lines in order. *)
Theorem SplitStringByLine_join_lines (lines : list string) :
  Forall is_line lines -> SplitStringByLine (join_lines lines) = lines.
Proof.
  unfold SplitStringByLine.
  induction 1 as [|line lines [Hne Hnl] _ IH]; [done|].
  cbn [join_lines foldr]. rewrite split_lines_line by done.
  rewrite append_nil_l, bool_decide_eq_false_2 by done.
  cbn [app]. f_equal. apply IH.
Qed.

Lemma SplitStringByLine_join_lines_witness :
  SplitStringByLine (join_lines ["AI_%d"; "Child%02d"; "x"]) = ["AI_%d"; "Child%02d"; "x"].
Proof.
  apply (SplitStringByLine_join_lines ["AI_%d"; "Child%02d"; "x"]).
  repeat constructor; try discriminate; vm_compute; not_in.
Defined.

Lemma foldl_emplace_keeps (lines : list string) (m : gmap Z string) h x :
  m !! h = Some x ->
  foldl (fun names name => emplace (crc32 name) name names) m lines !! h = Some x.
Proof.
  revert m. induction lines as [|l lines IH]; intros m Hm; [done|].
  cbn. apply IH. by apply emplace_keeps.
Qed.

Lemma foldl_emplace_registers (lines : list string) (m : gmap Z string) name :
  name ∈ lines ->
  is_Some (foldl (fun names name => emplace (crc32 name) name names) m lines
             !! crc32 name).
Proof.
  revert m. induction lines as [|l lines IH]; intros m Hin; [by apply elem_of_nil in Hin|].
  cbn. apply elem_of_cons in Hin as [->|Hin]; [|by apply IH].
  destruct (emplace_is_Some (crc32 l) l m) as [x Hx].
  exists x. by apply foldl_emplace_keeps.
Qed.

(** X3.  Every line of the hashed-names file is known to the table the
    constructor builds: [GetName] on the CRC32 of the line returns a name of
    that CRC32, whatever the index and the parent, and leaves the table as
    it is. *)
Theorem NameTable_new_resolves (hashed_names_f numbered_names_f name : string)
    (index parent : Z) :
  name ∈ SplitStringByLine hashed_names_f ->
  exists s,
    GetName (crc32 name) index parent (NameTable_new true hashed_names_f numbered_names_f)
      = (Some s, NameTable_new true hashed_names_f numbered_names_f) /\
    crc32 s = crc32 name.
Proof.
  intros Hin.
  destruct (foldl_emplace_registers _ ∅ name Hin) as [s Hs].
  exists s. split.
  - apply GetName_resolved. left. exact Hs.
  - destruct (NameTable_new_consistent true hashed_names_f numbered_names_f) as [Hc _].
    by apply Hc.
Qed.

Lemma NameTable_new_resolves_witness :
  exists s,
    GetName (crc32 "Bar") 5 7 (NameTable_new true (join_lines ["Foo"; "Bar"]) "")
      = (Some s, NameTable_new true (join_lines ["Foo"; "Bar"]) "") /\
    crc32 s = crc32 "Bar".
Proof.
  apply (NameTable_new_resolves (join_lines ["Foo"; "Bar"]) "" "Bar" 5 7).
  vm_compute. apply list_elem_of_further, list_elem_of_here.
Defined.

(** X4.  On a table whose entries are stored under the CRC32 of their
    names, the name [GetName] returns for a hash has that hash as its CRC32,
    and the table it leaves still has that property. *)
Theorem GetName_sound (t t' : NameTable) (hash index parent : Z) (name : string) :
  consistent t ->
  GetName hash index parent t = (Some name, t') ->
  crc32 name = hash /\ consistent t'.
Proof.
  intros Hc E. split.
  - apply (GetName_crc hash index parent t name Hc). by rewrite E.
  - pose proof (GetName_consistent hash index parent t Hc) as Hc'. by rewrite E in Hc'.
Qed.

Lemma GetName_sound_witness :
  crc32 "Foo_1" = crc32 "Foo_1" /\
  consistent (with_owned (crc32 "Foo_1") "Foo_1" (AddNameReference "FooList" empty_table)).
Proof.
  apply (GetName_sound (AddNameReference "FooList" empty_table) _
           (crc32 "Foo_1") 1 (crc32 "FooList") "Foo_1").
  - apply AddNameReference_consistent.
    split; intros h s; cbn [names owned_names empty_table]; by rewrite lookup_empty.
  - vm_compute. reflexivity.
Defined.

(** X5.  [GetName] never touches [names] or [numbered_names]; it keeps
    every entry of [owned_names] and can add one only under [hash]; and a
    call that returns nothing leaves the table exactly as it was. *)
Theorem GetName_frame (t t' : NameTable) (hash index parent : Z) (r : option string) :
  GetName hash index parent t = (r, t') ->
  grows t t' /\
  (forall k, k <> hash -> owned_names t' !! k = owned_names t !! k) /\
  (r = None -> t' = t).
Proof.
  intros E. pose proof (GetName_consistent hash index parent t) as Hc.
  rewrite E in Hc. cbn in Hc.
  apply GetName_cases in E as [[-> _]|(c & -> & _ & _ & Ho & ->)].
  - split; [|by split]. unfold grows. by split_and!.
  - split; [|split; [|done]].
    + unfold grows. split_and!; try done. cbn. by apply insert_subseteq.
    + intros k Hk. cbn. by rewrite lookup_insert_ne.
Qed.

Lemma GetName_frame_witness :
  let t := AddNameReference "FooList" empty_table in
  let t' := with_owned (crc32 "Foo_1") "Foo_1" t in
  grows t t' /\
  (forall k, k <> crc32 "Foo_1" -> owned_names t' !! k = owned_names t !! k) /\
  (Some "Foo_1" = None -> t' = t).
Proof.
  intros t t'.
  apply (GetName_frame t t' (crc32 "Foo_1") 1 (crc32 "FooList") (Some "Foo_1")).
  vm_compute. reflexivity.
Defined.

Lemma first_return_filter {A B C} (b : A -> bool) (g : A -> B) (f : B -> option C) l :
  first_return (fun x => if b x then f (g x) else None) l =
  first_return f (g <$> filter (fun x => b x = true) l).
Proof.
  induction l as [|x l IH]; [done|].
  cbn [first_return]. rewrite filter_cons.
  destruct (b x) eqn:E.
  - rewrite decide_True by done. cbn. by rewrite IH.
  - rewrite decide_False by done. apply IH.
Qed.

Lemma test_names_first_return hash index t prefix :
  test_names hash index t prefix =
  first_return (fun c => if bool_decide (crc32 c = hash)
                         then Some (AddName hash c t) else None)
    (candidates prefix index).
Proof.
  rewrite test_names_find.
  by rewrite (first_return_find (fun c => crc32 c = hash) (fun c => AddName hash c t)).
Qed.

Lemma guess_from_parent_first_return hash index t P :
  guess_from_parent hash index t P =
  first_return (fun c => if bool_decide (crc32 c = hash)
                         then Some (AddName hash c t) else None)
    (prefixes P ≫= (fun prefix => candidates prefix index)).
Proof.
  rewrite first_return_bind. unfold guess_from_parent.
  rewrite (first_return_filter (EndsWith P) (strip_suffix P)
             (test_names hash index t)).
  unfold prefixes. cbn [first_return]. rewrite <- !test_names_first_return.
  destruct (test_names hash index t P); [done|].
  destruct (test_names hash index t "Children"); [done|].
  apply first_return_ext. intros prefix. apply test_names_first_return.
Qed.

Lemma guess_from_numbered_first_return hash index t :
  guess_from_numbered hash index t =
  first_return (fun c => if bool_decide (crc32 c = hash)
                         then Some (AddName hash c t) else None)
    (numbered_candidates index t).
Proof.
  unfold guess_from_numbered, numbered_candidates.
  rewrite first_return_bind. apply first_return_ext. intros name.
  rewrite first_return_bind. apply first_return_ext. intros i.
  cbn. by destruct (bool_decide _).
Qed.

Lemma GetName_first_return t hash index parent :
  names t !! hash = None ->
  owned_names t !! hash = None ->
  GetName hash index parent t =
    match first_return (fun c => if bool_decide (crc32 c = hash)
                                 then Some (AddName hash c t) else None)
            (all_candidates index parent t) with
    | Some (c, t') => (Some c, t')
    | None => (None, t)
    end.
Proof.
  intros Hn Ho.
  set (test := fun c => if bool_decide (crc32 c = hash)
                        then Some (AddName hash c t) else None).
  assert (Hg : match names t !! parent with
               | Some P => guess_from_parent hash index t P
               | None => None
               end =
               first_return test
                 match names t !! parent with
                 | Some P => prefixes P ≫= (fun prefix => candidates prefix index)
                 | None => []
                 end).
  { destruct (names t !! parent); [apply guess_from_parent_first_return|done]. }
  unfold GetName. rewrite Hn, Ho, Hg, guess_from_numbered_first_return. fold test.
  unfold all_candidates. rewrite first_return_app.
  destruct (first_return test _) as [[n t1]|]; [done|].
  by destruct (first_return test _) as [[n t1]|].
Qed.

(** C4, as the specification words it: a later call with the same three
    arguments returns another string when the table has taken an
    [AddNameReference] in between.  "Ehzyoyfa_0" is guessed and stored in
    [owned_names]; "Ehzyoyfa1" has the same CRC32, and once it is in [names]
    it is found first. *)
Lemma GetName_memoized_counterexample :
  let t := AddNameReference "Ehzyoyfa" empty_table in
  let hash := 0x7900d840 in
  let t' := with_owned hash "Ehzyoyfa_0" t in
  let t'' := AddNameReference "Ehzyoyfa1" t' in
  GetName hash 0 (crc32 "Ehzyoyfa") t = (Some "Ehzyoyfa_0", t') /\
  owned_names t'' !! hash = Some "Ehzyoyfa_0" /\
  GetName hash 0 (crc32 "Ehzyoyfa") t'' = (Some "Ehzyoyfa1", t'').
Proof. vm_compute. repeat split; reflexivity. Qed.

(** C4, amended.  A name that [GetName] guesses for a hash that is in
    neither dictionary, the first candidate of that CRC32, is inserted into
    [owned_names] under the hash.  And when a call
    [GetName(hash, index, parent_name_hash)] returns a name, the name is
    then in [names], or in [owned_names] with no entry for the hash in
    [names]; every later call for that hash, with the same or any other
    index and parent, returns that name from there and leaves the table as
    it is, whatever [GetName], [AddName] and [AddNameReference] calls came
    in between, provided no [AddNameReference] was given another string of
    that CRC32. *)
Theorem GetName_memoized (hash index parent : Z) (t : NameTable) :
  (forall k c,
     names t !! hash = None ->
     owned_names t !! hash = None ->
     list_find (fun c => crc32 c = hash) (all_candidates index parent t) = Some (k, c) ->
     GetName hash index parent t = (Some c, with_owned hash c t)) /\
  (forall name t' calls index' parent',
     GetName hash index parent t = (Some name, t') ->
     forallb (keeps_name hash name) calls = true ->
     (names t !! hash = None -> owned_names t !! hash = None ->
        t' = with_owned hash name t) /\
     resolved hash name t' /\
     GetName hash index' parent' (run_calls calls t') =
       (Some name, run_calls calls t')).
Proof.
  split.
  - intros k c Hn Ho Hfind. rewrite GetName_first_return by done.
    rewrite (first_return_find (fun c => crc32 c = hash) (fun c => AddName hash c t)).
    rewrite Hfind. cbn [fmap option_fmap option_map snd]. by rewrite AddName_fresh.
  - intros name t' calls index' parent' Hcall Hcalls.
    assert (Hr : resolved hash name t') by (by eapply GetName_makes_resolved).
    split_and!; [|done|].
    + intros Hn Ho.
      apply GetName_cases in Hcall
        as [[_ [Hx|[_ Hx]]]|(c & [= ->] & _ & _ & _ & ->)]; [congruence|congruence|done].
    + by apply GetName_resolved, run_calls_keep_resolved.
Qed.

(** "Foo_1" is guessed under the parent "FooList" and stored; it is then
    returned for another index and an unknown parent, after a [GetName] for
    another hash, an [AddName] of another name under the same hash and an
    [AddNameReference] of a string of another CRC32. *)
Lemma GetName_memoized_witness :
  let t := AddNameReference "FooList" empty_table in
  let hash := crc32 "Foo_1" in
  let t' := with_owned hash "Foo_1" t in
  let calls := [CallGetName (crc32 "Foo_2") 1 (crc32 "FooList");
                CallAddName hash "Bar"; CallAddNameReference "Foo"] in
  GetName hash 1 (crc32 "FooList") t = (Some "Foo_1", t') /\
  GetName hash 7 0 (run_calls calls t') = (Some "Foo_1", run_calls calls t').
Proof.
  intros t hash t' calls.
  destruct (GetName_memoized hash 1 (crc32 "FooList") t) as [Hguess Hlater].
  assert (Hcall : GetName hash 1 (crc32 "FooList") t = (Some "Foo_1", t')).
  { apply (Hguess 25%nat); vm_compute; reflexivity. }
  split; [exact Hcall|].
  apply (Hlater "Foo_1" t' calls 7 0 Hcall). vm_compute. reflexivity.
Defined.

(** X6.  For a hash that is in neither dictionary, [GetName] is a search
    through one list of candidates: those built on the parent's name, on
    "Children" and on the parent's name without its suffix "s", "es" or
    "List" (when the parent is in [names]), then the numbered names at every
    [i] from 0 below [index + 2].  The first candidate whose CRC32 is the
    hash is stored in [owned_names] and returned; when there is none the
    call returns nothing and the table is unchanged. *)
Theorem GetName_search (t : NameTable) (hash index parent : Z) :
  names t !! hash = None ->
  owned_names t !! hash = None ->
  GetName hash index parent t =
    match list_find (fun c => crc32 c = hash) (all_candidates index parent t) with
    | Some (_, c) => (Some c, with_owned hash c t)
    | None => (None, t)
    end.
Proof.
  intros Hn Ho. rewrite GetName_first_return by done.
  rewrite (first_return_find (fun c => crc32 c = hash) (fun c => AddName hash c t)).
  destruct (list_find _ _) as [[k c]|]; cbn [fmap option_fmap option_map snd]; [|done].
  by rewrite AddName_fresh.
Qed.

(** The numbered name "Enemy%03d" at [i = 2], with an unknown parent. *)
Lemma GetName_search_witness :
  let t := mkNameTable ∅ ∅ ["AI_%d"; "Enemy%03d"] in
  GetName (crc32 "Enemy002") 1 0 t =
    (Some "Enemy002", with_owned (crc32 "Enemy002") "Enemy002" t).
Proof.
  intros t.
  etrans; [apply (GetName_search t (crc32 "Enemy002") 1 0); vm_compute; reflexivity|].
  vm_compute. reflexivity.
Defined.

(** X7.  After [AddNameReference(name)], [GetName] on the CRC32 of [name]
    returns the name that [names] holds for that hash: [name] itself, unless
    an earlier name of the same CRC32 was there, which is kept.  Adding the
    same reference again changes nothing. *)
Theorem AddNameReference_GetName (name : string) (index parent : Z) (t : NameTable) :
  GetName (crc32 name) index parent (AddNameReference name t) =
    (Some (default name (names t !! crc32 name)), AddNameReference name t) /\
  AddNameReference name (AddNameReference name t) = AddNameReference name t.
Proof.
  split.
  - apply GetName_resolved. left. cbn. unfold emplace.
    destruct (names t !! crc32 name) eqn:E; cbn; [done|]. apply lookup_insert_eq.
  - unfold AddNameReference. cbn. f_equal. unfold emplace at 1.
    by destruct (emplace_is_Some (crc32 name) name (names t)) as [x ->].
Qed.

(** X8.  [AddName(hash, name)] never replaces an owned name: it returns the
    name [owned_names] already held for [hash], or [name] when there was
    none, and leaves [names] and [numbered_names] alone.  A later [GetName]
    on [hash] gives the entry of [names] when there is one and the returned
    name otherwise, without changing the table. *)
Theorem AddName_GetName (hash : Z) (name : string) (index parent : Z) (t : NameTable) :
  (AddName hash name t).1 = default name (owned_names t !! hash) /\
  names (AddName hash name t).2 = names t /\
  numbered_names (AddName hash name t).2 = numbered_names t /\
  owned_names (AddName hash name t).2 !! hash = Some (AddName hash name t).1 /\
  GetName hash index parent (AddName hash name t).2 =
    (Some (default (AddName hash name t).1 (names t !! hash)), (AddName hash name t).2).
Proof.
  assert (Ho : emplace hash name (owned_names t) !! hash
               = Some (default name (owned_names t !! hash))).
  { unfold emplace. destruct (owned_names t !! hash) eqn:E; cbn; [done|].
    apply lookup_insert_eq. }
  unfold AddName. cbn [fst snd names numbered_names owned_names]. rewrite Ho. cbn [default].
  split_and!; try done.
  apply GetName_resolved. unfold resolved. cbn [names owned_names].
  destruct (names t !! hash) eqn:E; cbn; [by left|by right].
Qed.

End NameTableProperties.

(** ** Further properties: the reader *)

Section ReaderProperties.

Context `{FloatModel}.

Lemma map_emplace_NoDup {T} (k : Z) (v : T) (m : list (Z * T)) :
  NoDup m.*1 -> NoDup (map_emplace k v m).*1.
Proof.
  intros Hm. unfold map_emplace. case_bool_decide as Hk; [done|].
  rewrite fmap_app. cbn. apply NoDup_app. split; [done|]. split.
  - intros x Hx ->%list_elem_of_singleton. done.
  - apply NoDup_singleton.
Qed.

Lemma emplace_all_NoDup {T} (parsed map : list (Z * T)) :
  NoDup map.*1 -> NoDup (emplace_all map parsed).*1.
Proof.
  revert map. induction parsed as [|[k v] parsed IH]; intros map Hm; [done|].
  cbn. apply IH. by apply map_emplace_NoDup.
Qed.

Lemma emplace_all_sublist {T} (parsed map : list (Z * T)) :
  emplace_all map parsed `sublist_of` map ++ parsed.
Proof.
  revert map. induction parsed as [|[k v] parsed IH]; intros map.
  { cbn. by rewrite app_nil_r. }
  cbn. etrans; [apply IH|]. unfold map_emplace. case_bool_decide.
  - apply sublist_app; [done|]. by apply sublist_cons.
  - by rewrite <- app_assoc.
Qed.

Lemma emplace_all_to_map {T} (parsed map : list (Z * T)) :
  (list_to_map (emplace_all map parsed) : gmap Z T) = list_to_map (map ++ parsed).
Proof.
  revert map. induction parsed as [|[k v] parsed IH]; intros map.
  { cbn. by rewrite app_nil_r. }
  change (emplace_all map ((k, v) :: parsed))
    with (emplace_all (map_emplace k v map) parsed).
  rewrite IH. unfold map_emplace. case_bool_decide as Hk.
  - rewrite !list_to_map_app, list_to_map_cons.
    apply map_eq. intros i. rewrite !lookup_union.
    destruct (decide (i = k)) as [->|Hne].
    + rewrite lookup_insert_eq.
      destruct (list_to_map map !! k) eqn:E; [by destruct (list_to_map parsed !! k)|].
      apply not_elem_of_list_to_map in E. done.
    + by rewrite lookup_insert_ne.
  - by rewrite <- app_assoc.
Qed.

Lemma ReadMap_entries_parse {T} (read_T : Node -> result (option T)) entries map :
  ReadMap_entries read_T entries map =
  emplace_all map <$> traverse (parse_entry read_T) entries.
Proof.
  revert map. induction entries as [|[key child] entries IH]; intros map; [done|].
  cbn. destruct (deserialize read_T child) as [v|e]; cbn; [|done].
  destruct (Name_of_key key) as [name|e]; cbn; [|done].
  rewrite IH. by destruct (traverse (parse_entry read_T) entries).
Qed.

(** X9.  [ReadMap] reads every child, in order, and stops at the first
    that fails; when none fails, a key that occurs more than once keeps the
    value of its first occurrence ([emplace]): the map holds each name hash
    once, and its entries are a subsequence of the children read. *)
Theorem ReadMap_first_wins {T} (read_T : Node -> result (option T))
    (entries : list (Scalar * Node)) (m : list (Z * T)) :
  ReadMap_entries read_T entries [] = Ok m ->
  exists parsed,
    traverse (parse_entry read_T) entries = Ok parsed /\
    NoDup m.*1 /\
    (list_to_map m : gmap Z T) = list_to_map parsed /\
    m `sublist_of` parsed.
Proof.
  rewrite ReadMap_entries_parse.
  intros (parsed & Hp & ->)%fmap_Ok. exists parsed. split; [done|]. split; [|split].
  - apply emplace_all_NoDup. cbn. apply NoDup_nil_2.
  - by rewrite emplace_all_to_map.
  - apply (emplace_all_sublist parsed []).
Qed.

Lemma lxor_u32 (a b : Z) : is_u32 a -> is_u32 b -> is_u32 (Z.lxor a b).
Proof.
  unfold is_u32. intros [Ha1 Ha2] [Hb1 Hb2].
  assert (Hnn : 0 <= Z.lxor a b) by (apply Z.lxor_nonneg; tauto).
  split; [done|].
  destruct (decide (Z.lxor a b = 0)) as [->|Hne]; [done|].
  apply Z.log2_lt_pow2; [lia|].
  pose proof (Z.log2_lxor a b Ha1 Hb1) as Hlog.
  assert (Hla : Z.log2 a < 32).
  { destruct (decide (a = 0)) as [->|Hane]; [done|]. apply Z.log2_lt_pow2; lia. }
  assert (Hlb : Z.log2 b < 32).
  { destruct (decide (b = 0)) as [->|Hbne]; [done|]. apply Z.log2_lt_pow2; lia. }
  lia.
Qed.

Lemma shift_bit_u32 (c : Z) : is_u32 c -> is_u32 (Crc.shift_bit c).
Proof.
  intros Hc. unfold Crc.shift_bit.
  assert (Hs : is_u32 (Z.shiftr c 1)).
  { rewrite Z.shiftr_div_pow2 by lia. unfold is_u32 in *.
    change (2 ^ 1) with 2. split; [apply Z.div_pos; lia|].
    apply Z.div_lt_upper_bound; lia. }
  destruct (Z.testbit c 0); [|done].
  apply lxor_u32; [done|]. unfold is_u32. lia.
Qed.

Lemma update_u32 (c byte : Z) : is_u32 c -> 0 <= byte < 256 -> is_u32 (Crc.update c byte).
Proof.
  intros Hc Hb. unfold Crc.update.
  assert (H0 : is_u32 (Z.lxor c byte)) by (apply lxor_u32; [done|unfold is_u32; lia]).
  revert H0. generalize (Z.lxor c byte). intros x Hx.
  cbv [Nat.iter nat_rect]. do 8 apply shift_bit_u32. exact Hx.
Qed.

(** The CRC32 of a string is a [u32]. *)
Lemma crc32_u32 (s : string) : is_u32 (crc32 s).
Proof.
  unfold Crc.crc32. apply lxor_u32; [|unfold is_u32; lia].
  assert (Hinit : is_u32 0xFFFFFFFF) by (unfold is_u32; lia).
  revert Hinit. generalize 0xFFFFFFFF. unfold Crc.bytes_of.
  induction (list_ascii_of_string s) as [|c l IH]; intros x Hx; [done|].
  cbn. apply IH. apply update_u32; [done|].
  pose proof (N_ascii_bounded c). lia.
Qed.

Lemma to_s32_range (v : Z) : is_s32 (to_s32 v).
Proof.
  unfold is_s32, to_s32. pose proof (Z.mod_pos_bound v (2 ^ 32)).
  destruct (Z.ltb_spec (v mod 2 ^ 32) (2 ^ 31)); lia.
Qed.

Lemma to_u8_range (v : Z) : is_u8 (to_u8 v).
Proof. unfold is_u8, to_u8. apply Z.mod_pos_bound. lia. Qed.

Lemma substring_length_le (s : string) (n : nat) :
  (String.length (substring 0 n s) <= n)%nat.
Proof.
  revert n. induction s as [|c s IH]; intros [|n]; cbn; try lia.
  specialize (IH n). lia.
Qed.

Lemma traverse_Forall {A B} (f : A -> result B) (P : B -> Prop) l ys :
  (forall x y, f x = Ok y -> P y) -> traverse f l = Ok ys -> Forall P ys.
Proof.
  intros Hf. revert ys. induction l as [|x l IH]; intros ys; cbn.
  { intros [= <-]. constructor. }
  destruct (f x) as [y|] eqn:E; cbn; [|done].
  destruct (traverse f l) as [ys'|]; cbn; [|done].
  intros [= <-]. constructor; eauto.
Qed.

Lemma ParseInt_conv (conv : Z -> Z) (P : Z -> Prop) c y :
  (forall v, P (conv v)) -> ParseInt conv c = Ok y -> P y.
Proof. intros HP. destruct c as [tag [| |v| |]| |]; try done. cbn. by intros [= <-]. Qed.

Lemma read_floats_length n children i fs :
  read_floats n children i = Ok fs -> length fs = n.
Proof.
  revert i fs. induction n as [|n IH]; intros i fs; cbn.
  { by intros [= <-]. }
  destruct (child_at children i) as [c|]; cbn; [|done].
  destruct (ParseF32 c); cbn; [|done].
  destruct (read_floats n children (S i)) as [xs|] eqn:E; cbn; [|done].
  intros [= <-]. cbn. f_equal. by eapply IH.
Qed.

Lemma ReadSequenceForCurve_wf N children i v :
  ReadSequenceForCurve N children i = Ok v -> wf_Curves N v.
Proof.
  intros E. split; [by eapply ReadSequenceForCurve_length|].
  revert i v E. induction N as [|N IH]; intros i v; cbn -[read_floats].
  { intros [= <-]. constructor. }
  destruct (child_at children i) as [c|]; cbn -[read_floats]; [|done].
  destruct (ParseInt to_u32 c) as [a|] eqn:Ea; cbn -[read_floats]; [|done].
  destruct (child_at children (i + 1)) as [c'|]; cbn -[read_floats]; [|done].
  destruct (ParseInt to_u32 c') as [b|] eqn:Eb; cbn -[read_floats]; [|done].
  destruct (read_floats 30 children (i + 2)) as [fs|] eqn:Ef; cbn -[read_floats]; [|done].
  destruct (ReadSequenceForCurve N children (i + 32)) as [rest|] eqn:Er; cbn; [|done].
  intros [= <-]. constructor; [|by eapply IH].
  split; [|split]; cbn.
  - by apply (ParseInt_conv to_u32 is_u32 c a to_u32_range).
  - by apply (ParseInt_conv to_u32 is_u32 c' b to_u32_range).
  - by eapply read_floats_length.
Qed.

Lemma read_Parameter_scalar_wf (tag : string) (scalar : Scalar) (p : Param) :
  read_Parameter (NScalar tag scalar) = Ok (Some p) -> wf_Param p.
Proof.
  destruct scalar as [|b|v|d|str]; cbn; try done.
  - by intros [= <-].
  - destruct (tag =? "!u")%string; intros [= <-]; cbn;
      [apply to_u32_range|apply to_s32_range].
  - by intros [= <-].
  - repeat (destruct (String.eqb tag _)); intros [= <-]; cbn;
      try done; apply substring_length_le.
Qed.

Lemma read_Parameter_sequence_wf (tag : string) (children : list Node) (p : Param) :
  read_Parameter (NSeq tag children) = Ok (Some p) -> wf_Param p.
Proof.
  unfold read_Parameter, ReadSequenceForBuffer.
  repeat match goal with
  | |- context [String.eqb tag ?t] => destruct (String.eqb tag t)
  end.
  all: try (intros E; apply fmap_Ok in E as (q & E & [= ->]);
            apply fmap_Ok in E as (v & Hv & ->); exact I).
  all: try done.
  - repeat case_bool_decide; try done.
    all: intros E; apply fmap_Ok in E as (q & E & [= ->]).
    all: apply fmap_Ok in E as (v & Hv & ->).
    all: by apply ReadSequenceForCurve_wf in Hv.
  - intros E; apply fmap_Ok in E as (q & E & [= ->]).
    apply fmap_Ok in E as (v & Hv & ->). cbn.
    eapply traverse_Forall; [|exact Hv].
    intros c y. apply ParseInt_conv, to_s32_range.
  - intros E; apply fmap_Ok in E as (q & E & [= ->]).
    apply fmap_Ok in E as (v & Hv & ->). cbn.
    eapply traverse_Forall; [|exact Hv].
    intros c y. apply ParseInt_conv, to_u32_range.
  - intros E; apply fmap_Ok in E as (q & E & [= ->]).
    apply fmap_Ok in E as (v & Hv & ->). cbn.
    eapply traverse_Forall; [|exact Hv].
    intros c y. apply ParseInt_conv, to_u8_range.
Qed.

(** X10.  Whatever node it is given, the reader only builds parameters
    within the invariants of their types: an [Int32] or a [U32] in range, a
    [FixedSafeString<N>] of at most [N - 1] bytes (longer text is cut),
    [Curve[K]] with [K] curves of 30 floats, buffers of elements in the range
    of their type. *)
Theorem read_Parameter_wf (node : Node) (p : Param) :
  read_Parameter node = Ok (Some p) -> wf_Param p.
Proof.
  destruct node as [tag scalar|tag children|tag entries].
  - apply read_Parameter_scalar_wf.
  - apply read_Parameter_sequence_wf.
  - done.
Qed.

Lemma Node_ind' (P : Node -> Prop) :
  (forall tag v, P (NScalar tag v)) ->
  (forall tag children, Forall P children -> P (NSeq tag children)) ->
  (forall tag entries, Forall (fun e => P e.2) entries -> P (NMap tag entries)) ->
  forall node, P node.
Proof.
  intros Hscalar Hseq Hmap. fix IH 1. intros [tag v|tag children|tag entries].
  - apply Hscalar.
  - apply Hseq. induction children as [|c children IHc]; constructor; [apply IH|apply IHc].
  - apply Hmap. induction entries as [|[k c] entries IHe]; constructor; [apply IH|apply IHe].
Qed.

Lemma with_child_has (name : string) (entries : list (Scalar * Node)) :
  has_child name entries = true ->
  exists key child, (key, child) ∈ entries /\
    forall A (absent : A) (k : Node -> A), with_child name absent k entries = k child.
Proof.
  induction entries as [|[key child] entries IH]; cbn; [done|].
  destruct (key_is name key) eqn:E; cbn.
  - intros _. exists key, child. split; [left|]. done.
  - intros (key' & child' & Hin & Hk)%IH. exists key', child'. split; [by right|].
    intros A absent k. apply Hk.
Qed.

Lemma sublist_Forall {A} (P : A -> Prop) (l1 l2 : list A) :
  l1 `sublist_of` l2 -> Forall P l2 -> Forall P l1.
Proof.
  induction 1 as [|x l1 l2 _ IH|x l1 l2 _ IH]; [done| |].
  - intros [Hx Hl]%Forall_cons. constructor; auto.
  - intros [_ Hl]%Forall_cons. auto.
Qed.

Lemma Name_of_key_u32 (key : Scalar) (name : Z) : Name_of_key key = Ok name -> is_u32 name.
Proof.
  destruct key as [|b|v|d|str]; cbn; try done; intros [= <-];
    [apply to_u32_range|apply crc32_u32].
Qed.

Lemma ReadMap_entries_wf {T} (read_T : Node -> result (option T)) (wf_T : T -> Prop)
    (entries : list (Scalar * Node)) (m : list (Z * T)) :
  Forall (fun e => forall v, read_T e.2 = Ok (Some v) -> wf_T v) entries ->
  ReadMap_entries read_T entries [] = Ok m ->
  wf_map wf_T m.
Proof.
  intros Hentries. rewrite ReadMap_entries_parse.
  intros (parsed & Hp & ->)%fmap_Ok. split.
  { apply emplace_all_NoDup. cbn. apply NoDup_nil_2. }
  apply (sublist_Forall _ _ parsed); [apply (emplace_all_sublist parsed [])|].
  clear -Hentries Hp. revert parsed Hp.
  induction Hentries as [|[key child] entries Hchild _ IH]; intros parsed; cbn.
  { intros [= <-]. constructor. }
  unfold deserialize. cbn in Hchild.
  destruct (read_T child) as [[v|]|]; cbn; try done.
  destruct (Name_of_key key) as [name|] eqn:Ek; cbn; [|done].
  destruct (traverse (parse_entry read_T) entries) as [rest|]; cbn; [|done].
  intros [= <-]. constructor; [|by apply IH].
  split; cbn; [by eapply Name_of_key_u32|by apply Hchild].
Qed.

Lemma ReadMap_wf {T} (read_T : Node -> result (option T)) (wf_T : T -> Prop)
    (node : Node) (m : list (Z * T)) :
  (forall tag entries, node = NMap tag entries ->
     Forall (fun e => forall v, read_T e.2 = Ok (Some v) -> wf_T v) entries) ->
  ReadMap read_T node [] = Ok m ->
  wf_map wf_T m.
Proof.
  intros Hnode. destruct node as [tag v|tag [|c children]|tag entries]; cbn.
  - intros [= <-]. split; [apply NoDup_nil_2|constructor].
  - intros [= <-]. split; [apply NoDup_nil_2|constructor].
  - done.
  - apply ReadMap_entries_wf. by eapply Hnode.
Qed.

Lemma read_ParameterObject_wf (node : Node) (o : ParameterObject) :
  read_ParameterObject node = Ok (Some o) -> wf_ParameterObject o.
Proof.
  destruct node as [tag v|tag children|tag entries]; [done|done|].
  unfold read_ParameterObject.
  destruct (ReadMap read_Parameter (NMap tag entries) []) as [params|] eqn:E; [|done].
  cbn. intros [= <-]. unfold wf_ParameterObject. cbn.
  eapply ReadMap_wf; [|exact E].
  intros tag' entries' _. apply Forall_forall. intros e _ v.
  destruct (e.2) as [tg sc|tg ch|tg en];
    [apply read_Parameter_scalar_wf|apply read_Parameter_sequence_wf|done].
Qed.

Lemma read_ParameterList_NMap tag entries :
  read_ParameterList (NMap tag entries) =
  if has_child "objects" entries && has_child "lists" entries then
    with_child "objects" (Err RymlError) (fun objects_node =>
      with_child "lists" (Err RymlError) (fun lists_node =>
        objs ← ReadMap read_ParameterObject objects_node [];
        lsts ← ReadMap read_ParameterList lists_node [];
        Ok (Some (mkParameterList objs lsts))) entries) entries
  else Ok None.
Proof. reflexivity. Qed.

Lemma read_ParameterList_wf (node : Node) :
  (forall l, read_ParameterList node = Ok (Some l) -> wf_ParameterList l) /\
  (forall m, ReadMap read_ParameterList node [] = Ok m -> wf_map wf_ParameterList m).
Proof.
  induction node as [tag v|tag children _|tag entries IH] using Node_ind'.
  - split; [done|]. intros m. apply ReadMap_wf. done.
  - split; [done|]. intros m. apply ReadMap_wf. done.
  - split.
    + intros l. rewrite read_ParameterList_NMap.
      destruct (has_child "objects" entries) eqn:Ho; [|done].
      destruct (has_child "lists" entries) eqn:Hl; [|done]. cbn [andb].
      destruct (with_child_has _ _ Ho) as (ko & objects_node & _ & ->).
      destruct (with_child_has _ _ Hl) as (kl & lists_node & Hin & ->).
      destruct (ReadMap read_ParameterObject objects_node []) as [objs|] eqn:Eo; [|done].
      destruct (ReadMap read_ParameterList lists_node []) as [lsts|] eqn:El; [|done].
      cbn. intros [= <-].
      rewrite Forall_forall in IH. destruct (IH _ Hin) as [_ Hlists].
      destruct (Hlists _ El) as [Hnd Hall].
      constructor; [|done| |].
      * eapply ReadMap_wf; [|exact Eo]. intros tag' entries' _.
        apply Forall_forall. intros e _ v. apply read_ParameterObject_wf.
      * eapply Forall_impl; [exact Hall|]. by intros kv [? _].
      * eapply Forall_impl; [exact Hall|]. by intros kv [_ ?].
    + intros m. apply ReadMap_wf. intros tag' entries' [= _ <-].
      eapply Forall_impl; [exact IH|]. intros e [He _]. exact He.
Qed.

(** X11.  Every tree [FromText] returns is within the invariants of the
    tree types, whatever the document: its version and every key are [u32]
    values, no map holds a key twice, and every parameter is well formed. *)
Theorem FromText_wf (document : Node) (pio : ParameterIO) :
  FromText document = Ok pio -> wf_ParameterIO pio.
Proof.
  unfold FromText, deserialize.
  destruct document as [tag v|tag children|tag entries]; [done|done|].
  unfold read_ParameterIO.
  destruct (has_child "version" entries) eqn:Hv; [|done].
  destruct (has_child "type" entries) eqn:Ht; [|done].
  destruct (has_child "param_root" entries) eqn:Hr; [|done]. cbn [andb].
  destruct (with_child_has _ _ Hv) as (kv & version_node & _ & ->).
  destruct (with_child_has _ _ Ht) as (kt & type_node & _ & ->).
  destruct (with_child_has _ _ Hr) as (kr & root & _ & ->).
  destruct (ParseInt to_u32 version_node) as [version|] eqn:Ev; [|done].
  cbn [mbind result_bind].
  destruct (ParseScalar type_node) as [s|]; [|done]. cbn [mbind result_bind].
  destruct (get_string s) as [type|]; [|done]. cbn [mbind result_bind].
  unfold deserialize.
  destruct (read_ParameterList root) as [[l|]|] eqn:El; try done.
  cbn. intros [= <-]. split; cbn.
  - by apply (ParseInt_conv to_u32 is_u32 version_node version to_u32_range).
  - by apply (read_ParameterList_wf root).
Qed.

(** X12.  [read] returns false, without raising anything, exactly when the
    node is not a map (for an object) or is not a map with the children it
    asks for: "objects" and "lists" for a list, "version", "type" and
    "param_root" for the document.  A document of another shape makes
    [FromText] fail. *)
Theorem read_returns_false (node : Node) :
  (read_ParameterObject node = Ok None <-> is_map node = false) /\
  (read_ParameterList node = Ok None <-> is_list_map node = false) /\
  (read_ParameterIO node = Ok None <-> is_io_map node = false) /\
  (is_io_map node = false -> FromText node = Err RymlError).
Proof.
  assert (Hio : read_ParameterIO node = Ok None <-> is_io_map node = false).
  { destruct node as [tag v|tag children|tag entries]; [done|done|].
    unfold read_ParameterIO, is_io_map.
    destruct (has_child "version" entries) eqn:Hv; [|done].
    destruct (has_child "type" entries) eqn:Ht; [|done].
    destruct (has_child "param_root" entries) eqn:Hr; [|done]. cbn [andb].
    destruct (with_child_has _ _ Hv) as (kv & version_node & _ & ->).
    destruct (with_child_has _ _ Ht) as (kt & type_node & _ & ->).
    destruct (with_child_has _ _ Hr) as (kr & root & _ & ->).
    split; [|done].
    destruct (ParseInt to_u32 version_node); [|done]. cbn [mbind result_bind].
    destruct (ParseScalar type_node) as [s|]; [|done]. cbn [mbind result_bind].
    destruct (get_string s); [|done]. cbn [mbind result_bind].
    by destruct (deserialize read_ParameterList root). }
  split; [|split; [|split; [done|]]].
  - destruct node as [tag v|tag children|tag entries]; [done|done|].
    unfold read_ParameterObject. cbn [is_map]. split; [|done].
    by destruct (ReadMap read_Parameter (NMap tag entries) []).
  - destruct node as [tag v|tag children|tag entries]; [done|done|].
    rewrite read_ParameterList_NMap. unfold is_list_map.
    destruct (has_child "objects" entries) eqn:Ho; [|done].
    destruct (has_child "lists" entries) eqn:Hl; [|done]. cbn [andb].
    destruct (with_child_has _ _ Ho) as (ko & objects_node & _ & ->).
    destruct (with_child_has _ _ Hl) as (kl & lists_node & _ & ->).
    split; [|done].
    destruct (ReadMap read_ParameterObject objects_node []); [|done].
    by destruct (ReadMap read_ParameterList lists_node []).
  - intros Hfalse%Hio. unfold FromText, deserialize. by rewrite Hfalse.
Qed.

End ReaderProperties.

(** The key 5 occurs twice: its first value is kept. *)
Lemma ReadMap_first_wins_witness :
  let yes := @NScalar integral_floats "" (@SBool integral_floats true) in
  let no := @NScalar integral_floats "" (@SBool integral_floats false) in
  let entries := [(@SInt integral_floats 5, yes); (@SInt integral_floats 6, no);
                  (@SInt integral_floats 5, no)] in
  let m := [(5, @PBool integral_floats true); (6, @PBool integral_floats false)] in
  exists parsed,
    traverse (parse_entry read_Parameter) entries = Ok parsed /\
    NoDup m.*1 /\
    (list_to_map m : gmap Z Param) = list_to_map parsed /\
    m `sublist_of` parsed.
Proof.
  intros yes no entries m.
  apply (ReadMap_first_wins read_Parameter entries m). reflexivity.
Defined.

(** Text of 40 bytes under [!str32] is cut to 31 bytes. *)
Lemma read_Parameter_wf_witness :
  @wf_Param integral_floats (PString32 "0123456789012345678901234567890").
Proof.
  apply (@read_Parameter_wf integral_floats
           (NScalar "!str32" (SString "0123456789012345678901234567890123456789"))).
  reflexivity.
Defined.

(** A document with an integer that does not fit: the version is reduced
    modulo 2^32. *)
Lemma FromText_wf_witness :
  let document :=
    @NMap integral_floats "!io"
      [(SString "version", NScalar "" (SInt (2 ^ 32 + 3)));
       (SString "type", NScalar "" (SString "xlink"));
       (SString "param_root",
        NMap "!list" [(SString "objects", NMap "" []); (SString "lists", NMap "" [])])] in
  wf_ParameterIO
    (@mkParameterIO integral_floats (@mkParameterList integral_floats [] []) 3 "xlink").
Proof.
  intros document. apply (@FromText_wf integral_floats document). reflexivity.
Defined.

(** ** Further properties: the writer *)

Section WriterProperties.

Context `{FloatModel}.

Lemma grows_refl (t : NameTable) : grows t t.
Proof. unfold grows. by split_and!. Qed.

Lemma grows_trans (t1 t2 t3 : NameTable) : grows t1 t2 -> grows t2 t3 -> grows t1 t3.
Proof.
  intros (A1 & B1 & C1 & D1) (A2 & B2 & C2 & D2). unfold grows. split_and!.
  - by rewrite A2.
  - by rewrite B2.
  - by etrans.
  - auto.
Qed.

Lemma GetName_grows (hash index parent : Z) (t : NameTable) :
  grows t (GetName hash index parent t).2.
Proof.
  pose proof (GetName_consistent hash index parent t) as Hc.
  destruct (GetName hash index parent t) as [r t'] eqn:E. cbn in *.
  apply GetName_cases in E as [[-> _]|(c & -> & _ & _ & Ho & ->)].
  - apply grows_refl.
  - unfold grows. split_and!; try done. cbn. by apply insert_subseteq.
Qed.

Lemma EmitName_grows (name index parent : Z) (st : EmitterState) :
  grows (default_name_table st) (default_name_table (EmitName name index parent st).2).
Proof.
  unfold EmitName.
  destruct (GetName name index parent (m_extra_name_table st)) as [[s|] extra];
    [apply grows_refl|].
  pose proof (GetName_grows name index parent (default_name_table st)) as Hg.
  by destruct (GetName name index parent (default_name_table st)) as [[s|] table].
Qed.

Lemma emit_entries_grows {V} (emit_value : V -> Z -> EmitterState -> Node * EmitterState)
    (parent : Z) (m : list (Z * V)) :
  Forall (fun kv => value_grows emit_value kv.2) m ->
  forall i st,
    grows (default_name_table st)
          (default_name_table (emit_entries emit_value parent m i st).2).
Proof.
  induction 1 as [|[name v] m Hv _ IH]; intros i st; [apply grows_refl|].
  cbn [emit_entries].
  pose proof (EmitName_grows name i parent st) as H1.
  destruct (EmitName name i parent st) as [key st1].
  pose proof (Hv name st1) as H2. cbn in H2.
  destruct (emit_value v name st1) as [node st2].
  pose proof (IH (i + 1) st2) as H3.
  destruct (emit_entries emit_value parent m (i + 1) st2) as [entries st3].
  cbn in *. eapply grows_trans; [exact H1|]. eapply grows_trans; [exact H2|exact H3].
Qed.

Lemma EmitParameterObject_grows (o : ParameterObject) : value_grows EmitParameterObject o.
Proof.
  intros parent st. unfold EmitParameterObject.
  pose proof (emit_entries_grows (fun param (_ : Z) st => (EmitParameter param, st))
                parent (params o)) as Hg.
  destruct (emit_entries _ parent (params o) 0 st) as [entries st'] eqn:E.
  specialize (Hg ltac:(apply Forall_forall; intros kv _ n s; apply grows_refl) 0 st).
  by rewrite E in Hg.
Qed.

Lemma EmitParameterList_grows (l : ParameterList) : value_grows EmitParameterList l.
Proof.
  induction l as [objs lsts IH] using ParameterList_ind'.
  intros parent st. cbn [EmitParameterList].
  pose proof (emit_entries_grows
                (fun object name st => EmitParameterObject object name st) parent objs
                ltac:(apply Forall_forall; intros kv _; apply EmitParameterObject_grows)
                0 st) as H1.
  destruct (emit_entries _ parent objs 0 st) as [oentries st1].
  pose proof (emit_entries_grows
                (fun list name st => EmitParameterList list name st) parent lsts IH
                0 st1) as H2.
  destruct (emit_entries _ parent lsts 0 st1) as [lentries st2].
  cbn in *. by eapply grows_trans.
Qed.

(** X13.  Writing a document does not touch [names] or [numbered_names] of
    the default name table; it only adds guessed names to its
    [owned_names], and a table whose entries are stored under the CRC32 of
    their names keeps that property. *)
Theorem ToText_default_table (pio : ParameterIO) (default_table : NameTable) :
  grows default_table (ToText pio default_table).2.
Proof.
  unfold ToText, Emit, EmitParameterIO.
  set (st := mkEmitterState _ default_table).
  pose proof (EmitParameterList_grows (io_list pio) ParamRootKey st) as Hg.
  by destruct (EmitParameterList (io_list pio) ParamRootKey st) as [root st'].
Qed.

Lemma gained_refl R t : gained R t t.
Proof. unfold gained. split_and!; auto. Qed.

Lemma gained_trans (R : string -> Prop) t1 t2 t3 :
  gained R t1 t2 -> gained R t2 t3 -> gained R t1 t3.
Proof.
  intros (A1 & B1 & C1) (A2 & B2 & C2). unfold gained. split_and!.
  - by rewrite A2.
  - by rewrite B2.
  - intros h s [Hs|Hs]%C2; [by apply C1|by right].
Qed.

Lemma gained_weaken (R R' : string -> Prop) t t' :
  (forall s, R s -> R' s) -> gained R t t' -> gained R' t t'.
Proof.
  intros HR (A & B & C). unfold gained. split_and!; try done.
  intros h s [Hs|[Hs Hh]]%C; [by left|right; auto].
Qed.

Lemma AddNameReference_gained s t : gained (fun x => x = s) t (AddNameReference s t).
Proof.
  unfold gained. split_and!; try done. cbn. intros h x. unfold emplace.
  destruct (names t !! crc32 s) eqn:E; [by left|].
  destruct (decide (crc32 s = h)) as [<-|Hne].
  - rewrite lookup_insert_eq. intros [= <-]. by right.
  - rewrite lookup_insert_ne by done. by left.
Qed.

Lemma foldl_gained {A} (f : NameTable -> A -> NameTable) (R : string -> Prop) l t :
  (forall x t, x ∈ l -> gained R t (f t x)) -> gained R t (foldl f t l).
Proof.
  revert t. induction l as [|x l IH]; intros t Hf; [apply gained_refl|].
  cbn. eapply gained_trans.
  - apply Hf. left.
  - apply IH. intros y t' Hy. apply Hf. by right.
Qed.

Lemma BuildExtraNameTable_object_gained (o : ParameterObject) t :
  gained (fun s => exists kp p, (kp, p) ∈ params o /\ string_value p = Some s)
    t (BuildExtraNameTable_object o t).
Proof.
  unfold BuildExtraNameTable_object. apply foldl_gained.
  intros [kp p] t' Hin. destruct (string_value p) as [s|] eqn:E; [|apply gained_refl].
  eapply gained_weaken; [|apply AddNameReference_gained].
  intros x ->. eauto.
Qed.

Lemma BuildExtraNameTable_gained (l : ParameterList) t :
  gained (fun s => StringValueIn s l) t (BuildExtraNameTable l t).
Proof.
  revert t. induction l as [objs lsts IH] using ParameterList_ind'. intros t.
  cbn [BuildExtraNameTable].
  match goal with |- gained _ _ (foldl _ ?t1 lsts) => apply gained_trans with t1 end.
  - apply foldl_gained. intros [k o] t' Hin.
    eapply gained_weaken; [|apply BuildExtraNameTable_object_gained].
    intros s (kp & p & Hp & Hs). by eapply string_in_object.
  - apply foldl_gained. intros [k sub] t' Hin.
    rewrite Forall_forall in IH.
    eapply gained_weaken; [|apply (IH _ Hin)].
    intros s Hs. by eapply string_in_sub_list.
Qed.

(** X14.  The extra name table of a document holds nothing but the string
    values of the document, each under its CRC32: it has no owned name and
    no numbered name, and every entry of [names] is the value of a
    string-typed parameter of the tree. *)
Theorem BuildExtraNameTable_only_strings (l : ParameterList) :
  owned_names (BuildExtraNameTable l empty_table) = ∅ /\
  numbered_names (BuildExtraNameTable l empty_table) = [] /\
  forall h s, names (BuildExtraNameTable l empty_table) !! h = Some s ->
    StringValueIn s l /\ crc32 s = h.
Proof.
  destruct (BuildExtraNameTable_gained l empty_table) as (Ho & Hn & Hs).
  split; [done|]. split; [done|].
  intros h s [Hemp|Hin]%Hs; [|done]. cbn in Hemp. by rewrite lookup_empty in Hemp.
Qed.

(** X15.  Every tag the writer puts on a parameter is one the reader knows:
    a tag on a scalar is recognized by [RecognizeTag] with the type of that
    scalar, and a sequence carries the one of the ten sequence tags that
    belongs to its variant; a parameter is never written as a map. *)
Theorem EmitParameter_tags (p : Param) :
  match EmitParameter p with
  | NScalar tag v => tag = "" \/ RecognizeTag tag = Some (scalar_type v)
  | NSeq tag _ => tag ∈ sequence_tags /\ sequence_tag_of p = Some tag
  | NMap _ _ => False
  end.
Proof.
  destruct p; cbn; try (by left); try (by right);
    (split; [by repeat constructor|reflexivity]).
Qed.

Lemma EmitName_is_key (name index parent : Z) (st : EmitterState) :
  is_name_key (EmitName name index parent st).1 = true.
Proof.
  unfold EmitName.
  destruct (GetName name index parent (m_extra_name_table st)) as [[s|] extra]; [done|].
  by destruct (GetName name index parent (default_name_table st)) as [[s|] table].
Qed.

Lemma emit_entries_shape {V} (emit_value : V -> Z -> EmitterState -> Node * EmitterState)
    (shape : Node -> bool) (parent : Z) (m : list (Z * V)) :
  Forall (fun kv => forall name st, shape (emit_value kv.2 name st).1 = true) m ->
  forall i st,
    forallb (fun '(key, child) => is_name_key key && shape child)
            (emit_entries emit_value parent m i st).1 = true.
Proof.
  induction 1 as [|[name v] m Hv _ IH]; intros i st; [done|].
  cbn [emit_entries].
  pose proof (EmitName_is_key name i parent st) as Hkey.
  destruct (EmitName name i parent st) as [key st1].
  pose proof (Hv name st1) as Hnode. cbn [snd] in Hnode.
  destruct (emit_value v name st1) as [node st2].
  pose proof (IH (i + 1) st2) as Hrest.
  destruct (emit_entries emit_value parent m (i + 1) st2) as [entries st3].
  cbn [fst forallb] in *. by rewrite Hkey, Hnode, Hrest.
Qed.

Lemma EmitParameterObject_shape (o : ParameterObject) (name : Z) (st : EmitterState) :
  object_shape (EmitParameterObject o name st).1 = true.
Proof.
  unfold EmitParameterObject.
  pose proof (emit_entries_shape (fun param (_ : Z) st => (EmitParameter param, st))
                is_param_node name (params o)
                ltac:(apply Forall_forall; intros [k p] _ n s; by destruct p) 0 st) as Hs.
  destruct (emit_entries _ name (params o) 0 st) as [entries st']. exact Hs.
Qed.

Lemma EmitParameterList_shape (l : ParameterList) :
  forall name st, list_shape (EmitParameterList l name st).1 = true.
Proof.
  induction l as [objs lsts IH] using ParameterList_ind'.
  intros name st. cbn [EmitParameterList].
  pose proof (emit_entries_shape
                (fun object name st => EmitParameterObject object name st) object_shape
                name objs
                ltac:(apply Forall_forall; intros kv _; apply EmitParameterObject_shape)
                0 st) as Ho.
  destruct (emit_entries _ name objs 0 st) as [oentries st1].
  pose proof (emit_entries_shape
                (fun list name st => EmitParameterList list name st) list_shape
                name lsts IH 0 st1) as Hl.
  destruct (emit_entries _ name lsts 0 st1) as [lentries st2].
  cbn [fst] in *.
  change (forallb (fun '(key, child) => is_name_key key && object_shape child) oentries
          && forallb (fun '(key, child) => is_name_key key && list_shape child) lentries
          = true).
  by rewrite Ho, Hl.
Qed.

(** X16.  Whatever the tree and the name tables, the document [ToText]
    writes has the shape the reader asks for: a map tagged [!io] with an
    integer "version", a string "type" and "param_root"; every list a map
    tagged [!list] with the untagged maps "objects" and "lists"; every
    object a map tagged [!obj]; every key a string or an integer and every
    parameter a scalar or a sequence.  In particular the document has the
    three children without which its [read] returns false. *)
Theorem ToText_shape (pio : ParameterIO) (default_table : NameTable) :
  io_shape (ToText pio default_table).1 = true /\
  is_io_map (ToText pio default_table).1 = true.
Proof.
  unfold ToText, Emit, EmitParameterIO.
  set (st := mkEmitterState _ default_table).
  pose proof (EmitParameterList_shape (io_list pio) ParamRootKey st) as Hroot.
  destruct (EmitParameterList (io_list pio) ParamRootKey st) as [root st'].
  cbn [fst] in *. split; [|reflexivity].
  change (list_shape root = true). exact Hroot.
Qed.

End WriterProperties.
